(** * playd: the audio pipe, the response line format and the ring buffer

    A shallow embedding of four parts of playd:

    - [Audio]: [NoAudio] and [PipeAudio] from [src/audio/audio.cpp], over an
      abstract source and sink;
    - [Wire]: response packing, the tokeniser and the response writers;
    - [RingBuffer]: the [PaRingBuffer] wrapper from [ringbuffer.hpp], over
      the functions of the ring library it calls;
    - [Cli]: the reading of the command line in [main.cpp].

    A method is a function from the object before the call to the object
    after it and the call's [outcome]: it returns, an exception leaves it,
    or an [assert] fails.  An object keeps the state it had when an
    exception left the method.  The definitions come first, the theorems
    after them. *)

From Stdlib Require Import ZArith NArith List String Ascii Bool Lia.
From Stdlib Require Import Sorting.Sorted DecimalString.
From Stdlib Require DecimalPos DecimalN.
Import ListNotations.

Local Open Scope Z_scope.

(** ** Errors and call outcomes *)

Module Errors.

(** Modelled from the spec: [errors.hpp] is not among the sources.  The kinds
    are the taxonomy of the specification's error handling design; the
    classes the sources name map to them as [NoAudioError] to [NO_FILE] and
    [ErrorCode::INTERNAL_ERROR] to [INTERNAL]. *)
Inductive ErrorKind : Type :=
| NO_FILE | LOAD | DECODE | SEEK | INVALID | NET | INTERNAL.

(** What a [throw] can carry: a playd [Error] (kind and message), or the
    standard library's [std::bad_alloc] raised by a failed [new]. *)
Inductive exn : Type :=
| Error (kind : ErrorKind) (msg : string)
| std_bad_alloc.

Definition NoAudioError (msg : string) : exn := Error NO_FILE msg.

Definition ErrorKind_eqb (a b : ErrorKind) : bool :=
  match a, b with
  | NO_FILE, NO_FILE | LOAD, LOAD | DECODE, DECODE | SEEK, SEEK
  | INVALID, INVALID | NET, NET | INTERNAL, INTERNAL => true
  | _, _ => false
  end.

(** Is this exception a playd error of kind [k]? *)
Definition has_kind (k : ErrorKind) (e : exn) : bool :=
  match e with
  | Error k' _ => ErrorKind_eqb k k'
  | std_bad_alloc => false
  end.

(** How a call ends: it returns, an exception leaves it, or an [assert]
    fails and the process is aborted.  [L] labels the assertions. *)
Inductive outcome (L A : Type) : Type :=
| Returns (a : A)
| Throws (e : exn)
| Aborted (l : L).

Arguments Returns {L A} a.
Arguments Throws {L A} e.
Arguments Aborted {L A} l.

(** The outcome of a call into code that asserts nothing, seen from a
    caller whose assertions are labelled by [L]. *)
Definition lift {L A} (o : outcome Empty_set A) : outcome L A :=
  match o with
  | Returns a => Returns a
  | Throws e => Throws e
  | Aborted l => match l with end
  end.

Definition returned {L A} (o : outcome L A) : bool :=
  match o with Returns _ => true | _ => false end.

Definition aborted {L A} (o : outcome L A) : bool :=
  match o with Aborted _ => true | _ => false end.

End Errors.

Import Errors.

(** ** A state monad whose calls may throw or abort *)

Module Method.

Section Method.
Context {L Obj : Type}.

(** A method of an object of type [Obj]: from the object before the call to
    the object after it and the call's outcome. *)
Definition M (A : Type) : Type := Obj -> Obj * outcome L A.

Definition ret {A} (a : A) : M A := fun o => (o, Returns a).

Definition bind {A B} (m : M A) (k : A -> M B) : M B :=
  fun o =>
    match m o with
    | (o', Returns a) => k a o'
    | (o', Throws e) => (o', Throws e)
    | (o', Aborted l) => (o', Aborted l)
    end.

Definition throw {A} (e : exn) : M A := fun o => (o, Throws e).

(** Reads the object ([this->field] in a const position). *)
Definition gets {A} (f : Obj -> A) : M A := fun o => (o, Returns (f o)).

(** Updates the object ([this->field = v]). *)
Definition modify (f : Obj -> Obj) : M unit := fun o => (f o, Returns tt).

(** [if (c) body;] *)
Definition when (c : bool) (body : M unit) : M unit :=
  if c then body else ret tt.

(** [assert(c)], labelled [l]; compiled away when [NDEBUG] is defined. *)
Definition assert (NDEBUG : bool) (l : L) (c : bool) : M unit :=
  fun o => if NDEBUG || c then (o, Returns tt) else (o, Aborted l).

End Method.

Arguments M : clear implicits.

Module Notations.
Declare Scope method_scope.
Delimit Scope method_scope with method.
Notation "x <- m ;; k" := (bind m (fun x => k))
  (at level 61, m at next level, right associativity) : method_scope.
Notation "m ;; k" := (bind m (fun _ => k))
  (at level 61, right associativity) : method_scope.
End Notations.

End Method.

(** ** Audio: [NoAudio] and [PipeAudio] ([src/audio/audio.cpp]) *)

Module Audio.

Import Method Method.Notations.
Local Open Scope method_scope.

(** [Audio::State], the states an audio item reports. *)
Inductive State : Type := NONE | STOPPED | PLAYING | AT_END.

Definition State_eqb (a b : State) : bool :=
  match a, b with
  | NONE, NONE | STOPPED, STOPPED | PLAYING, PLAYING | AT_END, AT_END => true
  | _, _ => false
  end.

(** Modelled from the spec: [AudioSource::DecodeState] is declared in
    [audio_source.hpp], which is not among the sources; the specification
    gives a decode result the states DECODING and END_OF_FILE.  [PipeAudio]
    only tests a state against [END_OF_FILE]. *)
Inductive DecodeState : Type := DECODING | END_OF_FILE.

Definition DecodeState_eqb (a b : DecodeState) : bool :=
  match a, b with
  | DECODING, DECODING | END_OF_FILE, END_OF_FILE => true
  | _, _ => false
  end.

(** [AudioSource::DecodeResult]: a decode state and the decoded bytes. *)
Definition DecodeResult : Type := DecodeState * list Byte.byte.

(** The [assert]s of [audio.cpp] that test the frame, by position.  (The
    others test that the source and sink pointers are not null; a
    [PipeAudio] below always holds both.) *)
Inductive Assertion : Type :=
| Decode_frame_empty_or_unfinished   (* DecodeIfFrameEmpty, on entry *)
| Transfer_frame_nonempty            (* TransferFrame, on entry *)
| Transfer_cleared_frame_finished    (* TransferFrame, after ClearFrame *)
| Transfer_iterator_in_frame.        (* TransferFrame, on exit *)

(** The response [Audio::Emit] builds: [Response::Res(kind, path, value)]. *)
Record Response : Type := Res { kind : string; path : string; value : string }.

(** [std::to_string] on an unsigned integer: its decimal digits. *)
Definition to_string (n : N) : string := NilZero.string_of_uint (N.to_uint n).

(** The part of the [AudioSource] interface that [PipeAudio] calls.  An
    implementation has private state of type [S]; [Decode] and [Seek] may
    throw, and so return an outcome next to the state they leave behind
    (they hold none of [PipeAudio]'s assertions). *)
Class AudioSource (S : Type) : Type := {
  Path : S -> string;
  SamplesFromMicros : S -> N -> N;
  MicrosFromSamples : S -> N -> N;
  Decode : S -> S * outcome Empty_set DecodeResult;
  SourceSeek : S -> N -> S * outcome Empty_set N
}.

(** The part of the [AudioSink] interface that [PipeAudio] calls.
    [Transfer k f it] stands for [Transfer(it, f.end())], where [it] is the
    offset of the iterator from [f.begin()]; the iterator is passed by
    reference, and the second component is the offset the sink leaves it at. *)
Class AudioSink (K : Type) : Type := {
  Start : K -> K * outcome Empty_set unit;
  Stop : K -> K * outcome Empty_set unit;
  SinkState : K -> State;
  SinkPosition : K -> N;
  SetPosition : K -> N -> K;
  SourceOut : K -> K;
  Transfer : K -> list Byte.byte -> Z -> K * Z
}.

(** The public operations of an audio item, as a caller invokes them
    through the [Audio] interface. *)
Inductive Op : Type :=
| OpUpdate
| OpEmit (path : string) (broadcast : bool)
| OpSetPlaying (playing : bool)
| OpSeek (position : N)
| OpPosition.

(** What an operation hands back when it returns. *)
Inductive Answer : Type :=
| AState (s : State)
| AResponse (r : option Response)
| AUnit
| AMicros (n : N).

(** [Audio::Emit], the default of the interface: "By default, emit nothing.
    This is an acceptable behaviour." *)
Definition Audio_Emit {Obj : Type} (path : string) (broadcast : bool)
  : M Assertion Obj (option Response) :=
  ret None.

(** *** NoAudio *)

(** [NoAudio] has no data members. *)
Inductive NoAudio : Type := mkNoAudio.

Section NoAudio.

(** [MSG_CMD_NEEDS_LOADED] comes from [messages.h], which is not among the
    sources: its text is left open. *)
Variable MSG_CMD_NEEDS_LOADED : string.

Definition NoAudio_Update : M Assertion NoAudio State :=
  ret NONE.

Definition NoAudio_Emit (path : string) (broadcast : bool)
  : M Assertion NoAudio (option Response) :=
  if String.eqb path "/control/state"
  then ret (Some (Res "Entry" "/control/state" "Ejected"))
  else ret None.

Definition NoAudio_SetPlaying (playing : bool) : M Assertion NoAudio unit :=
  throw (NoAudioError MSG_CMD_NEEDS_LOADED).

Definition NoAudio_Seek (position : N) : M Assertion NoAudio unit :=
  throw (NoAudioError MSG_CMD_NEEDS_LOADED).

Definition NoAudio_Position : M Assertion NoAudio N :=
  throw (NoAudioError MSG_CMD_NEEDS_LOADED).

Definition NoAudio_call (op : Op) : M Assertion NoAudio Answer :=
  match op with
  | OpUpdate => s <- NoAudio_Update ;; ret (AState s)
  | OpEmit p b => r <- NoAudio_Emit p b ;; ret (AResponse r)
  | OpSetPlaying b => NoAudio_SetPlaying b ;; ret AUnit
  | OpSeek p => NoAudio_Seek p ;; ret AUnit
  | OpPosition => n <- NoAudio_Position ;; ret (AMicros n)
  end.

(** "Only [Update] succeeds": an operation that returns is [Update]. *)
Definition NoAudio_only_Update_succeeds : Prop :=
  forall op : Op,
    returned (snd (NoAudio_call op mkNoAudio)) = true -> op = OpUpdate.

End NoAudio.

(** *** PipeAudio *)

(** The data members of [PipeAudio].  [frame_iterator] is kept as its offset
    from [frame.begin()], so [frame.begin()] is offset [0] and [frame.end()]
    is the frame's length; an offset can be negative or past the end if a
    sink leaves the iterator there. *)
Record PipeAudio (Src Snk : Type) : Type := mkPipeAudio {
  src : Src;
  sink : Snk;
  frame : list Byte.byte;
  frame_iterator : Z;
  announced_time : bool;
  last_time : N
}.

Arguments mkPipeAudio {Src Snk}.
Arguments src {Src Snk}.
Arguments sink {Src Snk}.
Arguments frame {Src Snk}.
Arguments frame_iterator {Src Snk}.
Arguments announced_time {Src Snk}.
Arguments last_time {Src Snk}.

Section PipeAudio.
Context {Src Snk : Type} {source : AudioSource Src} {output : AudioSink Snk}.

(** Whether the build defines [NDEBUG] (and so drops every [assert]). *)
Variable NDEBUG : bool.

Abbreviation Pipe := (PipeAudio Src Snk).
Abbreviation Call := (M Assertion Pipe).

Definition set_src (s : Src) (a : Pipe) : Pipe :=
  mkPipeAudio s (sink a) (frame a) (frame_iterator a)
              (announced_time a) (last_time a).

Definition set_sink (k : Snk) (a : Pipe) : Pipe :=
  mkPipeAudio (src a) k (frame a) (frame_iterator a)
              (announced_time a) (last_time a).

Definition set_frame (f : list Byte.byte) (a : Pipe) : Pipe :=
  mkPipeAudio (src a) (sink a) f (frame_iterator a)
              (announced_time a) (last_time a).

Definition set_frame_iterator (it : Z) (a : Pipe) : Pipe :=
  mkPipeAudio (src a) (sink a) (frame a) it
              (announced_time a) (last_time a).

Definition set_announced_time (b : bool) (a : Pipe) : Pipe :=
  mkPipeAudio (src a) (sink a) (frame a) (frame_iterator a) b (last_time a).

Definition set_last_time (t : N) (a : Pipe) : Pipe :=
  mkPipeAudio (src a) (sink a) (frame a) (frame_iterator a)
              (announced_time a) t.

(** [frame.begin()], [frame.end()] and [frame.empty()] as offsets. *)
Definition frame_begin (a : Pipe) : Z := 0.
Definition frame_end (a : Pipe) : Z := Z.of_nat (List.length (frame a)).
Definition frame_empty (a : Pipe) : bool :=
  match frame a with [] => true | _ :: _ => false end.

(** A call on the source that may throw: [this->src->f(...)]. *)
Definition on_src {A} (f : Src -> Src * outcome Empty_set A) : Call A :=
  fun a => let (s', r) := f (src a) in (set_src s' a, lift r).

(** A call on the sink that may throw: [this->sink->f(...)]. *)
Definition on_sink {A} (f : Snk -> Snk * outcome Empty_set A) : Call A :=
  fun a => let (k', r) := f (sink a) in (set_sink k' a, lift r).

Definition ClearFrame : Call unit :=
  modify (set_frame []) ;;
  e <- gets frame_end ;;
  modify (set_frame_iterator e).

Definition FrameFinished : Call bool :=
  e <- gets frame_end ;;
  it <- gets frame_iterator ;;
  ret (e <=? it).

Definition DecodeIfFrameEmpty : Call bool :=
  empty <- gets frame_empty ;;
  finished <- FrameFinished ;;
  assert NDEBUG Decode_frame_empty_or_unfinished (empty || negb finished) ;;
  finished <- FrameFinished ;;
  if negb finished then ret true else
  result <- on_src Decode ;;
  modify (set_frame (snd result)) ;;
  b <- gets frame_begin ;;
  modify (set_frame_iterator b) ;;
  ret (negb (DecodeState_eqb (fst result) END_OF_FILE)).

Definition TransferFrame : Call unit :=
  empty <- gets frame_empty ;;
  assert NDEBUG Transfer_frame_nonempty (negb empty) ;;
  modify (fun a =>
            let (k', it') := Transfer (sink a) (frame a) (frame_iterator a) in
            set_frame_iterator it' (set_sink k' a)) ;;
  finished <- FrameFinished ;;
  when finished
    (ClearFrame ;;
     finished' <- FrameFinished ;;
     assert NDEBUG Transfer_cleared_frame_finished finished') ;;
  empty <- gets frame_empty ;;
  b <- gets frame_begin ;;
  it <- gets frame_iterator ;;
  e <- gets frame_end ;;
  assert NDEBUG Transfer_iterator_in_frame
         (empty || ((b <=? it) && (it <? e))).

Definition Update : Call State :=
  more_available <- DecodeIfFrameEmpty ;;
  when (negb more_available)
       (modify (fun a => set_sink (SourceOut (sink a)) a)) ;;
  finished <- FrameFinished ;;
  when (negb finished) TransferFrame ;;
  gets (fun a => SinkState (sink a)).

Definition CanAnnounceTime (micros : N) : Call bool :=
  let secs := (micros / 1000 / 1000)%N in
  announced <- gets announced_time ;;
  last <- gets last_time ;;
  let announce := negb announced || (last <? secs)%N in
  when announce
       (modify (set_announced_time true) ;;
        modify (set_last_time secs)) ;;
  ret announce.

Definition Position : Call N :=
  gets (fun a => MicrosFromSamples (src a) (SinkPosition (sink a))).

Definition SetPlaying (playing : bool) : Call unit :=
  if playing then on_sink Start else on_sink Stop.

Definition Seek (position : N) : Call unit :=
  in_samples <- gets (fun a => SamplesFromMicros (src a) position) ;;
  out_samples <- on_src (fun s => SourceSeek s in_samples) ;;
  modify (fun a => set_sink (SetPosition (sink a) out_samples) a) ;;
  modify (set_announced_time false) ;;
  ClearFrame.

Definition Emit (path : string) (broadcast : bool) : Call (option Response) :=
  if String.eqb path "/control/state" then
    state <- gets (fun a => SinkState (sink a)) ;;
    let playing := State_eqb state PLAYING in
    ret (Some (Res "Entry" path (if playing then "Playing" else "Stopped")))
  else if String.eqb path "/player/file" then
    file <- gets (fun a => Path (src a)) ;;
    ret (Some (Res "Entry" path file))
  else if String.eqb path "/player/time/elapsed" then
    micros <- Position ;;
    can <- (if negb broadcast then ret true else CanAnnounceTime micros) ;;
    if negb can then ret None
    else ret (Some (Res "Entry" path (to_string micros)))
  else ret None.

(** The constructor: the members are initialised from the arguments,
    [announced_time] to [false], the frame to the empty vector; [last_time]
    is not initialised and the iterator is only set by [ClearFrame], so a
    fresh object has whatever [it0] and [lt0] the memory held. *)
Definition PipeAudio_new (s : Src) (k : Snk) (it0 : Z) (lt0 : N) : Pipe :=
  fst (ClearFrame (mkPipeAudio s k [] it0 false lt0)).

Definition PipeAudio_call (op : Op) : Call Answer :=
  match op with
  | OpUpdate => s <- Update ;; ret (AState s)
  | OpEmit p b => r <- Emit p b ;; ret (AResponse r)
  | OpSetPlaying b => SetPlaying b ;; ret AUnit
  | OpSeek p => Seek p ;; ret AUnit
  | OpPosition => n <- Position ;; ret (AMicros n)
  end.

(** The objects a program can hold: a constructed [PipeAudio], after any
    calls of its public operations.  A call that aborts ends the process,
    one that throws leaves the object with its caller. *)
Inductive Reachable : Pipe -> Prop :=
| Reachable_new (s : Src) (k : Snk) (it0 : Z) (lt0 : N) :
    Reachable (PipeAudio_new s k it0 lt0)
| Reachable_call (op : Op) (a : Pipe) :
    Reachable a ->
    aborted (snd (PipeAudio_call op a)) = false ->
    Reachable (fst (PipeAudio_call op a)).

(** *** The specification's wording of the same operations *)

(** "The current frame is finished (empty or fully transferred)". *)
Definition spec_frame_finished (a : Pipe) : bool :=
  frame_empty a || (frame_iterator a =? frame_end a).

(** "Replace the frame": the new bytes, read from their beginning. *)
Definition spec_replace_frame (f : list Byte.byte) (a : Pipe) : Pipe :=
  set_frame_iterator 0 (set_frame f a).

(** [sink.transfer(cursor, end)], which moves the cursor. *)
Definition spec_transfer (a : Pipe) : Pipe :=
  let (k', it') := Transfer (sink a) (frame a) (frame_iterator a) in
  set_frame_iterator it' (set_sink k' a).

(** Step 1 of the specification's update cycle: "If the current frame is
    finished, invoke [source.decode()].  Replace the frame; if the decoder
    returned END_OF_FILE, call [sink.source_out()]." *)
Definition spec_decode_step : Call unit :=
  finished <- gets spec_frame_finished ;;
  when finished
       (result <- on_src Decode ;;
        modify (spec_replace_frame (snd result)) ;;
        when (DecodeState_eqb (fst result) END_OF_FILE)
             (modify (fun a => set_sink (SourceOut (sink a)) a))).

(** Step 2: "If the frame is non-empty, call [sink.transfer(cursor, end)].
    If the cursor reaches the end, clear the frame." *)
Definition spec_transfer_step : Call unit :=
  empty <- gets frame_empty ;;
  when (negb empty)
       (modify spec_transfer ;;
        it <- gets frame_iterator ;;
        e <- gets frame_end ;;
        when (it =? e) (modify (spec_replace_frame []))).

(** The update cycle in the specification's three steps; step 3 is "Return
    [sink.state()]". *)
Definition spec_Update : Call State :=
  spec_decode_step ;;
  spec_transfer_step ;;
  gets (fun a => SinkState (sink a)).

(** The seek in the specification's order: convert, [source.seek], hand the
    achieved sample to [sink.set_position], clear the frame, reset the
    announced-time flag. *)
Definition spec_Seek (position : N) : Call unit :=
  samples <- gets (fun a => SamplesFromMicros (src a) position) ;;
  actual <- on_src (fun s => SourceSeek s samples) ;;
  modify (fun a => set_sink (SetPosition (sink a) actual) a) ;;
  modify (spec_replace_frame []) ;;
  modify (set_announced_time false).

(** *** The sink's side of the contract *)

(** [Transfer] advances the iterator it is given (never moves it back). *)
Definition Transfer_advances : Prop :=
  forall (k : Snk) (f : list Byte.byte) (it : Z),
    0 <= it < Z.of_nat (List.length f) ->
    it <= snd (Transfer k f it).

(** [Transfer] does not move the iterator past [end]. *)
Definition Transfer_stops_at_end : Prop :=
  forall (k : Snk) (f : list Byte.byte) (it : Z),
    0 <= it < Z.of_nat (List.length f) ->
    snd (Transfer k f it) <= Z.of_nat (List.length f).

(** The frame is guarded: the build keeps the assertions, or the sink
    honours its side of the contract. *)
Definition frame_checked : Prop := NDEBUG = false \/ Transfer_advances.

(** *** Invariants of the frame *)

(** What [TransferFrame] asserts on exit: the frame is empty, or the
    iterator lies in [[begin, end)]. *)
Definition FrameInvariant (a : Pipe) : Prop :=
  frame a = [] \/ (frame_begin a <= frame_iterator a < frame_end a).

(** What the code itself maintains, whatever the sink does: the frame is
    empty with the iterator at its [begin] (which is its [end]), or it holds
    bytes and the iterator is before [end]. *)
Definition FrameConsistent (a : Pipe) : Prop :=
  (frame a = [] /\ frame_iterator a = 0)
  \/ (frame a <> [] /\ frame_iterator a < frame_end a).

(** The same with the iterator not before [begin]. *)
Definition FrameCursorOk (a : Pipe) : Prop :=
  (frame a = [] /\ frame_iterator a = 0)
  \/ (0 <= frame_iterator a < frame_end a).

(** The part of [Update] that runs before it decides whether to call
    [TransferFrame]; it answers whether the call is made. *)
Definition Update_until_transfer : Call bool :=
  more_available <- DecodeIfFrameEmpty ;;
  when (negb more_available)
       (modify (fun a => set_sink (SourceOut (sink a)) a)) ;;
  finished <- FrameFinished ;;
  ret (negb finished).

(** The rest of [Update], from that decision on. *)
Definition Update_from_transfer (transfer : bool) : Call State :=
  when transfer TransferFrame ;;
  gets (fun a => SinkState (sink a)).

(** *** Members a method leaves alone *)

(** [m] leaves the view [f] of the object as it was, however it ends. *)
Definition keeps {A V : Type} (f : Pipe -> V) (m : Call A) : Prop :=
  forall a, f (fst (m a)) = f a.

(** The throttle's record, and the frame with its iterator. *)
Definition throttle (a : Pipe) : bool * N := (announced_time a, last_time a).
Definition cursor (a : Pipe) : list Byte.byte * Z :=
  (frame a, frame_iterator a).

(** *** Broadcasts of the elapsed time *)

(** The position that a call announces to every client, if it does: only a
    broadcast [Emit] of the elapsed time that is answered with a response
    announces one, and the position is the one the response carries. *)
Definition announced_position (op : Op) (a : Pipe) : option N :=
  match op with
  | OpEmit p true =>
      if String.eqb p "/player/time/elapsed" then
        match Emit p true a with
        | (_, Returns (Some _)) =>
            Some (MicrosFromSamples (src a) (SinkPosition (sink a)))
        | _ => None
        end
      else None
  | _ => None
  end.

(** Runs the calls [ops] one after another on [a] and lists the positions
    broadcast on the way; an aborted call ends the run. *)
Fixpoint broadcast_positions (ops : list Op) (a : Pipe) : list N :=
  match ops with
  | [] => []
  | op :: rest =>
      let now := match announced_position op a with
                 | Some m => [m]
                 | None => []
                 end in
      let (a', r) := PipeAudio_call op a in
      if aborted r then now else now ++ broadcast_positions rest a'
  end.

Definition is_seek (op : Op) : bool :=
  match op with OpSeek _ => true | _ => false end.

(** The whole second a position in microseconds lies in. *)
Definition whole_seconds (micros : N) : N := (micros / 1000000)%N.

End PipeAudio.

(** *** A source and a sink to run the code on *)

(** A source that hands out prepared chunks and then END_OF_FILE, and seeks
    only inside its length. *)
Record TestSource : Type := mkTestSource {
  chunks : list (list Byte.byte);
  sample_rate : N;
  length_samples : N
}.

#[global] Instance TestSource_AudioSource : AudioSource TestSource := {
  Path := fun _ => "/music/a.mp3"%string;
  SamplesFromMicros := fun s m => (m * sample_rate s / 1000000)%N;
  MicrosFromSamples := fun s n => (n * 1000000 / sample_rate s)%N;
  Decode := fun s =>
    match chunks s with
    | [] => (s, Returns (END_OF_FILE, []))
    | c :: rest =>
        (mkTestSource rest (sample_rate s) (length_samples s),
         Returns (DECODING, c))
    end;
  SourceSeek := fun s n =>
    if (n <=? length_samples s)%N then (s, Returns n)
    else (s, Throws (Error SEEK "seek out of range"))
}.

(** The calls a [TestSink] has received, oldest first. *)
Inductive SinkCall : Type :=
| CallStart
| CallStop
| CallSetPosition (samples : N)
| CallSourceOut
| CallTransfer (it : Z) (frame_end : Z).

(** A sink that accepts at most [room] bytes per transfer, plays what it
    accepts at once (one sample per byte) and records what it is asked to
    do. *)
Record TestSink : Type := mkTestSink {
  state : State;
  position : N;
  room : Z;
  calls : list SinkCall
}.

Definition record_call (c : SinkCall) (k : TestSink) : TestSink :=
  mkTestSink (state k) (position k) (room k) (calls k ++ [c]).

#[global] Instance TestSink_AudioSink : AudioSink TestSink := {
  Start := fun k =>
    match state k with
    | AT_END => (record_call CallStart k, Throws (Error NO_FILE "at end"))
    | _ => (mkTestSink PLAYING (position k) (room k) (calls k ++ [CallStart]),
            Returns tt)
    end;
  Stop := fun k =>
    (mkTestSink STOPPED (position k) (room k) (calls k ++ [CallStop]),
     Returns tt);
  SinkState := state;
  SinkPosition := position;
  SetPosition := fun k n =>
    mkTestSink (state k) n (room k) (calls k ++ [CallSetPosition n]);
  SourceOut := record_call CallSourceOut;
  Transfer := fun k f it =>
    let e := Z.of_nat (List.length f) in
    let n := Z.max 0 (Z.min (room k) (e - it)) in
    (mkTestSink (state k) (position k + Z.to_N n) (room k)
                (calls k ++ [CallTransfer it e]),
     it + n)
}.

(** A sink that puts the iterator back by one byte: it breaks the contract. *)
Record BackwardSink : Type := mkBackwardSink { }.

#[global] Instance BackwardSink_AudioSink : AudioSink BackwardSink := {
  Start := fun k => (k, Returns tt);
  Stop := fun k => (k, Returns tt);
  SinkState := fun _ => STOPPED;
  SinkPosition := fun _ => 0%N;
  SetPosition := fun k _ => k;
  SourceOut := fun k => k;
  Transfer := fun k f it => (k, it - 1)
}.

(** A file of two chunks, three bytes and one byte, at one sample a second;
    a stopped sink with room for two bytes; the object the constructor makes
    of them, and that object after one update, its frame partly sent. *)
Definition test_source : TestSource :=
  mkTestSource [[Byte.x01; Byte.x02; Byte.x03]; [Byte.x04]] 1 100.

Definition test_sink : TestSink := mkTestSink STOPPED 0 2 [].

Definition fresh_audio : PipeAudio TestSource TestSink :=
  PipeAudio_new test_source test_sink 7 9.

Definition audio_in_progress : PipeAudio TestSource TestSink :=
  fst (PipeAudio_call false OpUpdate fresh_audio).

(** Play, then update and announce the time four times over. *)
Definition playing_ticks : list Op :=
  [OpSetPlaying true;
   OpUpdate; OpEmit "/player/time/elapsed" true;
   OpUpdate; OpEmit "/player/time/elapsed" true;
   OpUpdate; OpEmit "/player/time/elapsed" true;
   OpUpdate; OpEmit "/player/time/elapsed" true].

End Audio.

(** ** The wire format: responses, the tokeniser and the writers *)

Module Wire.

Local Open Scope string_scope.

(** The bytes the line protocol treats specially. *)
Definition TAB : ascii := "009"%char.
Definition LF : ascii := "010"%char.
Definition CR : ascii := "013"%char.
Definition SPACE : ascii := " "%char.
Definition DQUOTE : ascii := "034"%char.
Definition SQUOTE : ascii := "'"%char.
Definition BACKSLASH : ascii := "\"%char.

(** A one-byte string. *)
Definition str (c : ascii) : string := String c EmptyString.

(** Does some byte of [s] satisfy [p]? *)
Fixpoint any (p : ascii -> bool) (s : string) : bool :=
  match s with
  | EmptyString => false
  | String c rest => p c || any p rest
  end.

(** *** Response ([response.h]) *)

(** [Response::Code]. *)
Inductive Code : Type :=
| OHAI | IAMA | FLOAD | EJECT | POS | END | PLAY | STOP | ACK | LEN.

(** Modelled from the spec: the table of code strings is defined in
    [response.cpp], which is not among the sources; the specification lists
    the wire name of each code, which is the code's own name. *)
Definition STRINGS (c : Code) : string :=
  match c with
  | OHAI => "OHAI" | IAMA => "IAMA" | FLOAD => "FLOAD" | EJECT => "EJECT"
  | POS => "POS" | END => "END" | PLAY => "PLAY" | STOP => "STOP"
  | ACK => "ACK" | LEN => "LEN"
  end.

(** The bytes whose presence makes the escape rule quote an argument:
    space, tab, carriage return, newline, both quotes and the backslash. *)
Definition forces_quoting (c : ascii) : bool :=
  Ascii.eqb c SPACE || Ascii.eqb c TAB || Ascii.eqb c CR || Ascii.eqb c LF
  || Ascii.eqb c DQUOTE || Ascii.eqb c SQUOTE || Ascii.eqb c BACKSLASH.

(** Inside the quotes a double quote and a backslash get a backslash in
    front; every other byte stands for itself. *)
Definition escape_byte (c : ascii) : string :=
  if Ascii.eqb c DQUOTE || Ascii.eqb c BACKSLASH
  then String BACKSLASH (str c)
  else str c.

Fixpoint escape_bytes (s : string) : string :=
  match s with
  | EmptyString => EmptyString
  | String c rest => escape_byte c ++ escape_bytes rest
  end.

Definition must_quote (arg : string) : bool :=
  String.eqb arg "" || any forces_quoting arg.

(** Modelled from the spec: [Response::EscapeArg] is declared in
    [response.h] and defined in [response.cpp], which is not among the
    sources.  The specification's escape rule: an argument that is empty or
    contains a space, tab, carriage return, newline, double quote, single
    quote or backslash is wrapped in double quotes, with each double quote
    and each backslash preceded by a backslash; any other argument is
    emitted verbatim. *)
Definition EscapeArg (arg : string) : string :=
  if must_quote arg
  then str DQUOTE ++ escape_bytes arg ++ str DQUOTE
  else arg.

(** [Response] keeps one data member, the packed form built so far. *)
Record Response : Type := mkResponse { string_ : string }.

(** Modelled from the spec: the constructor, [AddArg] and [Pack] are
    declared in [response.h] and defined in [response.cpp], which is not
    among the sources.  The specification joins the tag, the code's wire
    name and the escaped arguments with single spaces, and the packed form
    has no newline at its end. *)
Definition Response_new (tag : string) (code : Code) : Response :=
  mkResponse (tag ++ " " ++ STRINGS code).

Definition AddArg (r : Response) (arg : string) : Response :=
  mkResponse (string_ r ++ " " ++ EscapeArg arg).

Definition Pack (r : Response) : string := string_ r.

(** The response built from a tag, a code and a list of arguments. *)
Definition build (tag : string) (code : Code) (args : list string)
  : Response :=
  fold_left AddArg args (Response_new tag code).

(** The part of a packed response after the code: each argument escaped,
    after a space. *)
Fixpoint packed_args (args : list string) : string :=
  match args with
  | [] => ""
  | a :: rest => " " ++ EscapeArg a ++ packed_args rest
  end.

(** *** Tokeniser *)

(** Modelled from the spec: [tokeniser.h] and its implementation are not
    among the sources.  The states and the rules below are those of the
    specification's tokeniser section. *)
Inductive TokeniserState : Type :=
| NORMAL | IN_WORD | IN_SINGLE | IN_DOUBLE | ESCAPE_NORMAL | ESCAPE_DOUBLE.

(** The tokeniser between two bytes: its state, the words of the current
    line that are complete, and the word being accumulated. *)
Record Tokeniser : Type := mkTokeniser {
  tstate : TokeniserState;
  words : list string;
  current_word : string
}.

Definition Tokeniser_new : Tokeniser := mkTokeniser NORMAL [] "".

(** Appends a byte to the current word and moves to state [st]. *)
Definition push (c : ascii) (st : TokeniserState) (t : Tokeniser)
  : Tokeniser :=
  mkTokeniser st (words t) (current_word t ++ str c).

(** The completed words, with the current word if there is one: outside
    [NORMAL] a word is in progress, possibly an empty quoted one. *)
Definition words_so_far (t : Tokeniser) : list string :=
  match tstate t with
  | NORMAL => words t
  | _ => (words t ++ [current_word t])%list
  end.

(** Whitespace closes the current word, if any. *)
Definition end_word (t : Tokeniser) : Tokeniser :=
  mkTokeniser NORMAL (words_so_far t) "".

(** One byte: the tokeniser after it and the line it completed, if any. *)
Definition feed_byte (t : Tokeniser) (c : ascii)
  : Tokeniser * option (list string) :=
  match tstate t with
  | NORMAL | IN_WORD =>
      if Ascii.eqb c LF then (Tokeniser_new, Some (words_so_far t))
      else if Ascii.eqb c CR then (t, None)
      else if Ascii.eqb c SPACE || Ascii.eqb c TAB then (end_word t, None)
      else if Ascii.eqb c SQUOTE then
        (mkTokeniser IN_SINGLE (words t) (current_word t), None)
      else if Ascii.eqb c DQUOTE then
        (mkTokeniser IN_DOUBLE (words t) (current_word t), None)
      else if Ascii.eqb c BACKSLASH then
        (mkTokeniser ESCAPE_NORMAL (words t) (current_word t), None)
      else (push c IN_WORD t, None)
  | IN_SINGLE =>
      if Ascii.eqb c SQUOTE then
        (mkTokeniser IN_WORD (words t) (current_word t), None)
      else (push c IN_SINGLE t, None)
  | IN_DOUBLE =>
      if Ascii.eqb c BACKSLASH then
        (mkTokeniser ESCAPE_DOUBLE (words t) (current_word t), None)
      else if Ascii.eqb c DQUOTE then
        (mkTokeniser IN_WORD (words t) (current_word t), None)
      else (push c IN_DOUBLE t, None)
  | ESCAPE_NORMAL => (push c IN_WORD t, None)
  | ESCAPE_DOUBLE => (push c IN_DOUBLE t, None)
  end.

(** Feeding a chunk of bytes: the tokeniser afterwards and the lines the
    chunk completed, in order. *)
Fixpoint Feed (t : Tokeniser) (data : string)
  : Tokeniser * list (list string) :=
  match data with
  | EmptyString => (t, [])
  | String c rest =>
      let (t', line) := feed_byte t c in
      let (t'', lines) := Feed t' rest in
      (t'', match line with
            | Some l => l :: lines
            | None => lines
            end)
  end.

(** The words a fresh tokeniser reads from a packed response followed by the
    newline that frames it. *)
Definition parse_line (packed : string) : Tokeniser * list (list string) :=
  Feed Tokeniser_new (packed ++ str LF).

(** A tag that the escape rule would leave as it is. *)
Definition plain_word (w : string) : Prop := must_quote w = false.

(** Does the string end with a newline? *)
Fixpoint ends_with_newline (s : string) : bool :=
  match s with
  | EmptyString => false
  | String c EmptyString => Ascii.eqb c LF
  | String _ rest => ends_with_newline rest
  end.

(** *** The writers *)

(** Modelled from the spec: [Connection::Respond] is declared in [io.h] and
    defined in [io.cpp], which is not among the sources.  The specification's
    write path: the response is serialised, a newline is appended, and the
    bytes are enqueued to the transport's write queue, in order. *)
Definition Connection_Respond (queue : string) (r : Response) : string :=
  queue ++ Pack r ++ str LF.

(** The older responder of [io/io_response.cpp]. *)
Module Responder.

(** [ResponseCode], as the keys of [RESPONSES]. *)
Inductive ResponseCode : Type :=
| OKAY | WHAT | FAIL | OOPS | NOPE | OHAI | TTFN | STAT | TIME.

Definition RESPONSES (c : ResponseCode) : string :=
  match c with
  | OKAY => "OKAY" | WHAT => "WHAT" | FAIL => "FAIL" | OOPS => "OOPS"
  | NOPE => "NOPE" | OHAI => "OHAI" | TTFN => "TTFN" | STAT => "STAT"
  | TIME => "TIME"
  end.

(** [Responder::Respond]: formats the code, a space, the message and
    [std::endl], and hands the string to [RespondRaw]; the result is the
    string handed over. *)
Definition Respond (code : ResponseCode) (message : string) : string :=
  RESPONSES code ++ " " ++ message ++ str LF.

(** [Responder::RespondWithError], given the error's message. *)
Definition RespondWithError (message : string) : string :=
  Respond FAIL message.

End Responder.

End Wire.

(** ** The ring buffer ([ringbuffer.hpp]) *)

Module RingBuffer.

Import Method Method.Notations.
Local Open Scope method_scope.

(** The free store, as far as [new] depends on it: the bytes still free. *)
Record Heap : Type := mkHeap { free_bytes : Z }.

(** The constructor and the operations assert nothing: their outcomes are
    labelled by the empty type. *)

(** [new T] and [new char[n]]: takes [n] bytes from the free store, or
    throws [std::bad_alloc] when they cannot be had (for a negative [n] it is
    [std::bad_array_new_length], which is a [std::bad_alloc]). *)
Definition operator_new (n : Z) : M Empty_set Heap unit :=
  fun h =>
    if (0 <=? n) && (n <=? free_bytes h)
    then (mkHeap (free_bytes h - n), Returns tt)
    else (h, Throws std_bad_alloc).

(** [delete] and [delete[]] of [n] bytes. *)
Definition operator_delete (n : Z) : M Empty_set Heap unit :=
  modify (fun h => mkHeap (free_bytes h + n)).

(** An [int] has 32 bits: a result outside [[-2^31, 2^31)] wraps around. *)
Definition int_wrap (z : Z) : Z :=
  (z + 2147483648) mod 4294967296 - 2147483648.

(** The functions of [contrib/pa_ringbuffer.h] that [PaRingBuffer] calls, on
    a [PaUtilRingBuffer] of type [RB] with elements of type [T].  The header
    is not among the sources.  Initialising takes the element size, the
    element count and the memory for the elements, and answers a status
    (zero for success) next to the structure; writing takes the elements at
    the source pointer and a count, reading a count, and both answer the
    number of elements moved. *)
Class PaUtil (T RB : Type) : Type := {
  PaUtil_InitializeRingBuffer : Z -> Z -> list T -> Z * RB;
  PaUtil_GetRingBufferWriteAvailable : RB -> Z;
  PaUtil_GetRingBufferReadAvailable : RB -> Z;
  PaUtil_WriteRingBuffer : RB -> list T -> Z -> RB * Z;
  PaUtil_ReadRingBuffer : RB -> Z -> RB * list T * Z;
  PaUtil_FlushRingBuffer : RB -> RB
}.

(** The data members of [PaRingBuffer]: the ring structure, which refers to
    the element memory, and the sizes of the two allocations. *)
Record PaRingBuffer (RB : Type) : Type := mkPaRingBuffer {
  rb : RB;
  rb_bytes : Z;
  buffer_bytes : Z
}.

Arguments mkPaRingBuffer {RB}.
Arguments rb {RB}.
Arguments rb_bytes {RB}.
Arguments buffer_bytes {RB}.

Section PaRingBuffer.
Context {T RB : Type} {pa : PaUtil T RB}.

(** The template parameter [P]: the ring holds [1 << P] elements. *)
Variable P : Z.

(** [sizeof(PaUtilRingBuffer)]. *)
Variable sizeof_PaUtilRingBuffer : Z.

(** What freshly allocated element memory holds. *)
Variable junk : T.

(** [1 << P], computed in [int]: the element count of the ring.  The shift
    is defined for [P] from 0 to 31; at 31 the result is [INT_MIN]. *)
Definition element_count : Z := int_wrap (Z.shiftl 1 P).

(** [(1 << P) * size], computed in [int]: the length of the [char] array the
    constructor allocates. *)
Definition buffer_length (size : Z) : Z := int_wrap (element_count * size).

(** The constructor.  The two [int] expressions are computed with the
    wrap-around of [int]; [new char[n]] with a negative [n] throws.  The
    memory handed to the ring library is the array allocated: it holds as
    many elements of [size] bytes as fit into its [buffer_length size]
    bytes, which are [1 << P] when the product did not wrap.  The counts of
    [T2] and [ring_buffer_size_t] that the other operations pass on are
    kept as they are given. *)
Definition PaRingBuffer_new (size : Z)
  : M Empty_set Heap (PaRingBuffer RB) :=
  operator_new sizeof_PaUtilRingBuffer ;;
  operator_new (buffer_length size) ;;
  let buffer := repeat junk (Z.to_nat (buffer_length size / size)) in
  let (status, r) :=
    PaUtil_InitializeRingBuffer size element_count buffer in
  if negb (status =? 0)
  then throw (Error INTERNAL "ringbuf failed to init")
  else ret (mkPaRingBuffer r sizeof_PaUtilRingBuffer (buffer_length size)).

(** The destructor. *)
Definition PaRingBuffer_delete (q : PaRingBuffer RB) : M Empty_set Heap unit :=
  operator_delete (rb_bytes q) ;;
  operator_delete (buffer_bytes q).

Definition WriteCapacity (q : PaRingBuffer RB) : Z :=
  PaUtil_GetRingBufferWriteAvailable (rb q).

Definition ReadCapacity (q : PaRingBuffer RB) : Z :=
  PaUtil_GetRingBufferReadAvailable (rb q).

Definition Write (start : list T) (count : Z)
  : M Empty_set (PaRingBuffer RB) Z :=
  fun q =>
    let (r, n) := PaUtil_WriteRingBuffer (rb q) start count in
    (mkPaRingBuffer r (rb_bytes q) (buffer_bytes q), Returns n).

(** [Read] fills the memory at [start]; the elements it puts there are part
    of the answer. *)
Definition Read (count : Z)
  : M Empty_set (PaRingBuffer RB) (list T * Z) :=
  fun q =>
    let '(r, out, n) := PaUtil_ReadRingBuffer (rb q) count in
    (mkPaRingBuffer r (rb_bytes q) (buffer_bytes q), Returns (out, n)).

Definition Flush : M Empty_set (PaRingBuffer RB) unit :=
  modify (fun q =>
            mkPaRingBuffer (PaUtil_FlushRingBuffer (rb q))
                           (rb_bytes q) (buffer_bytes q)).

End PaRingBuffer.

(** *** The ring the specification describes *)

(** Modelled from the spec: [contrib/pa_ringbuffer.h] and its implementation
    are not among the sources.  The specification's ring has a capacity that
    is a power of two and a read and a write index that wrap; of the
    capacities it says that [read_capacity + write_capacity + 1 == capacity];
    writing copies up to [n] elements and never more than [write_capacity],
    reading consumes up to [n] and never more than [read_capacity], flushing
    resets both indices to zero, and initialising fails when the capacity is
    zero. *)
Record Ring (T : Type) : Type := mkRing {
  bufferSize : Z;
  readIndex : Z;
  writeIndex : Z;
  buffer : list T
}.

Arguments mkRing {T}.
Arguments bufferSize {T}.
Arguments readIndex {T}.
Arguments writeIndex {T}.
Arguments buffer {T}.

Section Ring.
Context {T : Type}.

(** Puts [x] in cell [i]. *)
Fixpoint store (cells : list T) (i : nat) (x : T) : list T :=
  match cells, i with
  | [], _ => []
  | _ :: rest, O => x :: rest
  | c :: rest, S j => c :: store rest j x
  end.

Definition Ring_ReadAvailable (r : Ring T) : Z :=
  (writeIndex r - readIndex r) mod bufferSize r.

Definition Ring_WriteAvailable (r : Ring T) : Z :=
  (readIndex r - writeIndex r - 1) mod bufferSize r.

Definition Ring_Initialize (elementSizeBytes elementCount : Z)
  (dataPtr : list T) : Z * Ring T :=
  if elementCount =? 0
  then (-1, mkRing 0 0 0 dataPtr)
  else (0, mkRing elementCount 0 0 dataPtr).

(** Copies the first [n] elements at [data] into the cells from index [w]
    on, wrapping at [size]. *)
Fixpoint copy_in (n : nat) (data : list T) (w size : Z) (cells : list T)
  : list T :=
  match n, data with
  | O, _ | _, [] => cells
  | S m, x :: data' =>
      copy_in m data' ((w + 1) mod size) size (store cells (Z.to_nat w) x)
  end.

(** Lists the [n] cells from index [r] on, wrapping at [size]. *)
Fixpoint copy_out (n : nat) (r size : Z) (cells : list T) : list T :=
  match n with
  | O => []
  | S m =>
      match nth_error cells (Z.to_nat r) with
      | Some x => x :: copy_out m ((r + 1) mod size) size cells
      | None => []
      end
  end.

Definition Ring_Write (r : Ring T) (data : list T) (elementCount : Z)
  : Ring T * Z :=
  let n := Z.max 0 (Z.min elementCount (Ring_WriteAvailable r)) in
  (mkRing (bufferSize r) (readIndex r)
          ((writeIndex r + n) mod bufferSize r)
          (copy_in (Z.to_nat n) data (writeIndex r) (bufferSize r) (buffer r)),
   n).

Definition Ring_Read (r : Ring T) (elementCount : Z)
  : Ring T * list T * Z :=
  let n := Z.max 0 (Z.min elementCount (Ring_ReadAvailable r)) in
  (mkRing (bufferSize r) ((readIndex r + n) mod bufferSize r)
          (writeIndex r) (buffer r),
   copy_out (Z.to_nat n) (readIndex r) (bufferSize r) (buffer r),
   n).

Definition Ring_Flush (r : Ring T) : Ring T :=
  mkRing (bufferSize r) 0 0 (buffer r).

#[global] Instance Ring_PaUtil : PaUtil T (Ring T) := {
  PaUtil_InitializeRingBuffer := Ring_Initialize;
  PaUtil_GetRingBufferWriteAvailable := Ring_WriteAvailable;
  PaUtil_GetRingBufferReadAvailable := Ring_ReadAvailable;
  PaUtil_WriteRingBuffer := Ring_Write;
  PaUtil_ReadRingBuffer := Ring_Read;
  PaUtil_FlushRingBuffer := Ring_Flush
}.

(** A ring in working order: a positive capacity, both indices inside it,
    and a cell for every index. *)
Definition Ring_ok (r : Ring T) : Prop :=
  0 < bufferSize r
  /\ 0 <= readIndex r < bufferSize r
  /\ 0 <= writeIndex r < bufferSize r
  /\ Z.of_nat (List.length (buffer r)) = bufferSize r.

End Ring.

(** "Construction fails with an INTERNAL-class error when initialisation or
    allocation fails": whatever exception leaves the constructor of a ring
    of [1 << P] bytes is an error of kind [INTERNAL]. *)
Definition construction_fails_internal (P sizeof_PaUtilRingBuffer : Z)
  : Prop :=
  forall (size : Z) (h h' : Heap) (e : exn),
    PaRingBuffer_new (RB := Ring Byte.byte)
                     P sizeof_PaUtilRingBuffer Byte.x00 size h
    = (h', Throws e) ->
    has_kind INTERNAL e = true.

(** A ring of four bytes, as the constructor makes it with memory to spare,
    and the same ring with three bytes written to it. *)
Definition test_ring : PaRingBuffer (Ring Byte.byte) :=
  mkPaRingBuffer (mkRing 4 0 0 [Byte.x00; Byte.x00; Byte.x00; Byte.x00]) 48 4.

Definition test_ring_full : PaRingBuffer (Ring Byte.byte) :=
  fst (Write [Byte.x01; Byte.x02; Byte.x03; Byte.x04; Byte.x05] 5 test_ring).

(** A ring library whose initialisation always reports failure, to run the
    constructor's error path on. *)
#[global] Instance Failing_PaUtil : PaUtil Byte.byte unit := {
  PaUtil_InitializeRingBuffer := fun _ _ _ => (-1, tt);
  PaUtil_GetRingBufferWriteAvailable := fun _ => 0;
  PaUtil_GetRingBufferReadAvailable := fun _ => 0;
  PaUtil_WriteRingBuffer := fun _ _ _ => (tt, 0);
  PaUtil_ReadRingBuffer := fun _ _ => (tt, [], 0);
  PaUtil_FlushRingBuffer := fun _ => tt
}.

End RingBuffer.

(** ** Calls on the audio pipe that only ask *)

Module AudioCalls.

Import Audio.

(** The calls that only ask: a unicast [Emit] and [Position]. *)
Definition is_query (op : Op) : bool :=
  match op with
  | OpEmit _ false => true
  | OpPosition => true
  | _ => false
  end.

Section Answers.
Context {Src Snk : Type} {source : AudioSource Src} {output : AudioSink Snk}.
Variable NDEBUG : bool.

(** How each of the calls [ops], made one after another on [a], ends; a
    call that aborts is the last. *)
Fixpoint answers (ops : list Op) (a : PipeAudio Src Snk)
  : list (outcome Assertion Answer) :=
  match ops with
  | [] => []
  | op :: rest =>
      let (a', r) := PipeAudio_call NDEBUG op a in
      r :: (if aborted r then [] else answers rest a')
  end.

(** [m] does not look at [last_time]: with another value there it does the
    same, and leaves that value there. *)
Definition ignores_last_time {A : Type}
           (m : Method.M Assertion (PipeAudio Src Snk) A) : Prop :=
  forall (t : N) (a : PipeAudio Src Snk),
    m (set_last_time t a) = (set_last_time t (fst (m a)), snd (m a)).

(** *** The bytes that pass through the pipe *)

(** The bytes of the frame still to be sent: those from the iterator on. *)
Definition pending (a : PipeAudio Src Snk) : list Byte.byte :=
  skipn (Z.to_nat (frame_iterator a)) (frame a).

(** The bytes of [f] a [Transfer] took that moved the iterator from [it] to
    [it']. *)
Definition taken (f : list Byte.byte) (it it' : Z) : list Byte.byte :=
  firstn (Z.to_nat (it' - it)) (skipn (Z.to_nat it) f).

(** The bytes a call decodes: those of the frame [Decode] returns to an
    [Update] that finds the frame finished. *)
Definition decoded_by (op : Op) (a : PipeAudio Src Snk) : list Byte.byte :=
  match op with
  | OpUpdate =>
      if frame_end a <=? frame_iterator a then
        match Decode (src a) with
        | (_, Returns result) => snd result
        | _ => []
        end
      else []
  | _ => []
  end.

(** The bytes the sink takes during a call: those its [Transfer] takes when
    [Update] comes to call [TransferFrame]. *)
Definition sent_by (op : Op) (a : PipeAudio Src Snk) : list Byte.byte :=
  match op with
  | OpUpdate =>
      match Update_until_transfer NDEBUG a with
      | (a1, Returns true) =>
          taken (frame a1) (frame_iterator a1)
                (snd (Transfer (sink a1) (frame a1) (frame_iterator a1)))
      | _ => []
      end
  | _ => []
  end.

(** The object after the calls [ops], and the bytes decoded and sent on the
    way. *)
Definition after (ops : list Op) (a : PipeAudio Src Snk)
  : PipeAudio Src Snk :=
  fold_left (fun a op => fst (PipeAudio_call NDEBUG op a)) ops a.

Fixpoint decoded_during (ops : list Op) (a : PipeAudio Src Snk)
  : list Byte.byte :=
  match ops with
  | [] => []
  | op :: rest =>
      decoded_by op a
      ++ decoded_during rest (fst (PipeAudio_call NDEBUG op a))
  end.

Fixpoint sent_during (ops : list Op) (a : PipeAudio Src Snk)
  : list Byte.byte :=
  match ops with
  | [] => []
  | op :: rest =>
      sent_by op a ++ sent_during rest (fst (PipeAudio_call NDEBUG op a))
  end.

End Answers.

(** A freshly made object over the sink that moves the iterator back. *)
Definition backward_audio : PipeAudio TestSource BackwardSink :=
  PipeAudio_new test_source mkBackwardSink 7 9.

(** A freshly made object over a source that has nothing left. *)
Definition drained_audio : PipeAudio TestSource TestSink :=
  PipeAudio_new (mkTestSource [] 1 100) test_sink 7 9.

End AudioCalls.

(** ** Lines of a response string *)

Module ResponseLines.

Import Wire.

(** The number of line feeds in [s]: the lines a client reading up to each
    line feed takes [s] for. *)
Fixpoint line_feeds (s : string) : nat :=
  match s with
  | EmptyString => 0%nat
  | String c rest =>
      if Ascii.eqb c LF then S (line_feeds rest) else line_feeds rest
  end.

End ResponseLines.

(** ** The life of a ring buffer *)

Module RingLife.

Import Method RingBuffer.

(** A call of one of the operations that change a [PaRingBuffer]. *)
Inductive RingCall (T : Type) : Type :=
| DoWrite (start : list T) (count : Z)
| DoRead (count : Z)
| DoFlush.

Arguments DoWrite {T}.
Arguments DoRead {T}.
Arguments DoFlush {T}.

Section RingLife.
Context {T RB : Type} {pa : PaUtil T RB}.

(** The buffer after the call. *)
Definition PaRingBuffer_call (c : RingCall T) (q : PaRingBuffer RB)
  : PaRingBuffer RB :=
  match c with
  | DoWrite start count => fst (Write start count q)
  | DoRead count => fst (Read count q)
  | DoFlush => fst (Flush q)
  end.

(** The buffer after the calls [cs], oldest first. *)
Definition PaRingBuffer_run (cs : list (RingCall T)) (q : PaRingBuffer RB)
  : PaRingBuffer RB :=
  fold_left (fun q c => PaRingBuffer_call c q) cs q.

End RingLife.

End RingLife.

(** ** The command line ([main.cpp]) *)

Module Cli.

Local Open Scope string_scope.

(** [DEFAULT_HOST] and [DEFAULT_PORT]. *)
Definition DEFAULT_HOST : string := "0.0.0.0".
Definition DEFAULT_PORT : string := "1350".

(** [INT_MIN] and [INT_MAX] of the 32-bit [int]. *)
Definition INT_MIN : Z := -2147483648.
Definition INT_MAX : Z := 2147483647.

(** [v.at(i)]: the element at [i], or nothing when [std::out_of_range] is
    thrown. *)
Definition vector_at {A : Type} (v : list A) (i : nat) : option A :=
  nth_error v i.

(** *** [std::from_chars] *)

(** The error codes [std::from_chars] reports; [errc_none] is the
    value-initialised [std::errc]. *)
Inductive errc : Type :=
| errc_none
| invalid_argument
| result_out_of_range.

Definition is_digit (c : ascii) : bool :=
  (48 <=? nat_of_ascii c)%nat && (nat_of_ascii c <=? 57)%nat.

Definition digit_value (c : ascii) : Z := Z.of_nat (nat_of_ascii c) - 48.

(** Reads the longest run of decimal digits at the head of [s]: the value
    read onto [acc], and the number of digits added to [count]. *)
Fixpoint digits (s : string) (acc : Z) (count : nat) : Z * nat :=
  match s with
  | String c rest =>
      if is_digit c then digits rest (10 * acc + digit_value c) (S count)
      else (acc, count)
  | EmptyString => (acc, count)
  end.

(** [std::from_chars(first, last, value)] for an [int] in base ten, as the
    C++ standard lays it down: the pattern is an optional minus sign and a
    non-empty run of digits, with no leading white space and no plus sign;
    without a match [value] is left alone and the error is
    [invalid_argument]; a match whose value does not fit in an [int] leaves
    [value] alone and the error is [result_out_of_range]; otherwise [value]
    is the number read.  The answer is [value], the number of bytes matched
    and the error code. *)
Definition from_chars (s : string) (value : Z) : Z * nat * errc :=
  let (negative, body) :=
    match s with
    | String c rest => if Ascii.eqb c "-" then (true, rest) else (false, s)
    | EmptyString => (false, s)
    end in
  let (magnitude, count) := digits body 0 0 in
  if Nat.eqb count 0 then (value, 0%nat, invalid_argument)
  else
    let parsed := if negative then - magnitude else magnitude in
    let matched := if negative then S count else count in
    if ((INT_MIN <=? parsed) && (parsed <=? INT_MAX))%Z
    then (parsed, matched, errc_none)
    else (value, matched, result_out_of_range).

(** Does [s] begin with a decimal digit? *)
Definition starts_with_digit (s : string) : bool :=
  match s with
  | String c _ => is_digit c
  | EmptyString => false
  end.

Section Cli.

(** [Audio::SDLSink::IsOutputDevice], defined with the SDL sink, which is
    not among the sources. *)
Variable IsOutputDevice : Z -> bool.

(** [GetDeviceIDFromArg]: what it writes to [std::cerr] and the ID it
    returns.  The pointer [&*arg.cbegin()] is taken to be the one to the
    first byte of the view, also when the view is empty. *)
Definition GetDeviceIDFromArg (arg : string) : string * Z :=
  let id := -1 in
  let '(id, p, ec) := from_chars arg id in
  match ec with
  | invalid_argument =>
      ("not a valid device ID: " ++ arg ++ Wire.str Wire.LF, -1)
  | result_out_of_range =>
      ("device ID too large: " ++ arg ++ Wire.str Wire.LF, -1)
  | errc_none => if negb (IsOutputDevice id) then ("", -1) else ("", id)
  end.

(** [GetDeviceID]: nothing when an exception leaves it. *)
Definition GetDeviceID (args : list string) : option (string * Z) :=
  if (List.length args <? 2)%nat then Some ("", -1)
  else
    match vector_at args 1 with
    | Some arg => Some (GetDeviceIDFromArg arg)
    | None => None
    end.

End Cli.

(** [GetHostAndPort]: nothing when an exception leaves it. *)
Definition GetHostAndPort (args : list string) : option (string * string) :=
  let size := List.length args in
  match (if (2 <? size)%nat then vector_at args 2 else Some DEFAULT_HOST),
        (if (3 <? size)%nat then vector_at args 3 else Some DEFAULT_PORT)
  with
  | Some host, Some port => Some (host, port)
  | _, _ => None
  end.

(** An output device check to run the code on: devices 0 to 3 exist. *)
Definition four_devices (id : Z) : bool := ((0 <=? id) && (id <? 4))%Z.

End Cli.

(** * Theorems *)

(** ** The audio pipe *)

Section AudioFacts.

Import Method Audio.

Context {Src Snk : Type} {source : AudioSource Src} {output : AudioSink Snk}.
Variable NDEBUG : bool.

Abbreviation Pipe := (PipeAudio Src Snk).

Lemma frame_empty_end (a : Pipe) : frame_empty a = (frame_end a =? 0).
Proof.
  unfold frame_empty, frame_end; destruct (frame a); reflexivity.
Qed.

Lemma FrameFinished_eq (a : Pipe) :
  FrameFinished a = (a, Returns (frame_end a <=? frame_iterator a)).
Proof. reflexivity. Qed.


Lemma frame_end_nonempty (a : Pipe) : frame a <> [] <-> frame_end a <> 0.
Proof.
  unfold frame_end. destruct (frame a); cbn; split; intros H; try congruence;
    lia.
Qed.

Lemma FrameCursorOk_iff (a : Pipe) :
  FrameCursorOk a <-> FrameConsistent a /\ 0 <= frame_iterator a.
Proof.
  unfold FrameCursorOk, FrameConsistent. split.
  - intros [[Hf Hit] | Hin]; [split; [left; auto | lia] |].
    split; [right | lia]. split; [| lia]. apply frame_end_nonempty. lia.
  - intros [[[Hf Hit] | [Hf Hit]] Hlow]; [left; auto | right; lia].
Qed.

Lemma DecodeIfFrameEmpty_eq (a : Pipe) :
  FrameConsistent a ->
  DecodeIfFrameEmpty NDEBUG a =
  if frame_end a <=? frame_iterator a then
    match Decode (src a) with
    | (s', Returns r) =>
        (set_frame_iterator 0 (set_frame (snd r) (set_src s' a)),
         Returns (negb (DecodeState_eqb (fst r) END_OF_FILE)))
    | (s', Throws e) => (set_src s' a, Throws e)
    | (s', Aborted l) => match l with end
    end
  else (a, Returns true).
Proof.
  intros Hok.
  unfold DecodeIfFrameEmpty, FrameFinished, on_src, bind, ret, gets, modify,
    assert.
  rewrite frame_empty_end.
  unfold FrameConsistent, frame_end, frame_begin in *.
  destruct a as [s k f it ann lt]; simpl in *.
  destruct Hok as [[Hf Hit] | [Hf Hin]].
  - subst f it; cbn. rewrite orb_true_r; cbn.
    destruct (Decode s) as [s' [r | e | []]]; reflexivity.
  - assert (Hfin : (Z.of_nat (List.length f) <=? it) = false)
      by (apply Z.leb_gt; lia).
    repeat (cbn; rewrite ?orb_true_r, ?Hfin). reflexivity.
Qed.

Lemma TransferFrame_eq (a : Pipe) :
  Transfer_advances ->
  0 <= frame_iterator a < frame_end a ->
  TransferFrame NDEBUG a =
  (if frame_end a <=? frame_iterator (spec_transfer a)
   then spec_replace_frame [] (spec_transfer a)
   else spec_transfer a,
   Returns tt).
Proof.
  intros Hadv Hin.
  unfold TransferFrame, FrameFinished, ClearFrame, bind, ret, gets, modify,
    when, assert, spec_transfer, spec_replace_frame.
  rewrite frame_empty_end.
  specialize (Hadv (sink a) (frame a) (frame_iterator a)).
  unfold frame_end, frame_begin in *.
  destruct a as [s k f it ann lt]; simpl in *.
  specialize (Hadv Hin).
  assert (Hne : (Z.of_nat (List.length f) =? 0) = false)
    by (apply Z.eqb_neq; lia).
  repeat (cbn; rewrite ?orb_true_r, ?Hne).
  destruct (Transfer k f it) as [k' it']; cbn in *.
  destruct (Z.of_nat (List.length f) <=? it') eqn:Hfin.
  - repeat (cbn; rewrite ?orb_true_r). reflexivity.
  - apply Z.leb_gt in Hfin.
    assert (H0 : (0 <=? it') = true) by (apply Z.leb_le; lia).
    assert (H1 : (it' <? Z.of_nat (List.length f)) = true)
      by (apply Z.ltb_lt; lia).
    repeat (cbn; rewrite ?orb_true_r, ?H0, ?H1, ?Hne). reflexivity.
Qed.


(** *** Members a method leaves alone *)

Lemma keeps_bind {A B V} (f : Pipe -> V) (m : M Assertion Pipe A)
      (k : A -> M Assertion Pipe B) :
  keeps f m -> (forall x, keeps f (k x)) -> keeps f (bind m k).
Proof.
  intros Hm Hk a. unfold bind.
  specialize (Hm a). destruct (m a) as [a1 [x | e | l]]; cbn in *; auto.
  rewrite Hk. assumption.
Qed.

Lemma keeps_ret {A V} (f : Pipe -> V) (x : A) : keeps f (ret x).
Proof. intros a; reflexivity. Qed.

Lemma keeps_throw {A V} (f : Pipe -> V) (e : exn) :
  keeps f (throw (A := A) e).
Proof. intros a; reflexivity. Qed.

Lemma keeps_gets {A V} (f : Pipe -> V) (g : Pipe -> A) : keeps f (gets g).
Proof. intros a; reflexivity. Qed.

Lemma keeps_assert {V} (f : Pipe -> V) (l : Assertion) (c : bool) :
  keeps f (assert NDEBUG l c).
Proof. intros a; unfold assert; destruct (NDEBUG || c); reflexivity. Qed.

Lemma keeps_modify {V} (f : Pipe -> V) (g : Pipe -> Pipe) :
  (forall a, f (g a) = f a) -> keeps f (modify g).
Proof. intros Hg a; apply Hg. Qed.

Lemma keeps_when {V} (f : Pipe -> V) (c : bool) (m : M Assertion Pipe unit) :
  keeps f m -> keeps f (when c m).
Proof. intros Hm; destruct c; [exact Hm | apply keeps_ret]. Qed.

Lemma keeps_if {A V} (f : Pipe -> V) (c : bool) (m1 m2 : M Assertion Pipe A) :
  keeps f m1 -> keeps f m2 -> keeps f (if c then m1 else m2).
Proof. intros; destruct c; assumption. Qed.

Lemma keeps_on_src {A V} (f : Pipe -> V)
      (g : Src -> Src * outcome Empty_set A) :
  (forall s a, f (set_src s a) = f a) -> keeps f (on_src g).
Proof.
  intros Hf a. unfold on_src. destruct (g (src a)) as [s' r]. apply Hf.
Qed.

Lemma keeps_on_sink {A V} (f : Pipe -> V)
      (g : Snk -> Snk * outcome Empty_set A) :
  (forall k a, f (set_sink k a) = f a) -> keeps f (on_sink g).
Proof.
  intros Hf a. unfold on_sink. destruct (g (sink a)) as [k' r]. apply Hf.
Qed.

(** Proves [keeps f m] for a method written with the combinators above. *)
Ltac keeps_tac :=
  repeat first
    [ apply keeps_bind; [| intros ?]
    | apply keeps_ret | apply keeps_throw | apply keeps_gets
    | apply keeps_assert | apply keeps_when | apply keeps_if
    | apply keeps_on_src; intros; reflexivity
    | apply keeps_on_sink; intros; reflexivity
    | apply keeps_modify; intros [? ? ? ? ? ?]; cbn;
      try destruct (Transfer _ _ _); reflexivity ].

Lemma Update_keeps_throttle :
  keeps (Src := Src) (Snk := Snk) throttle (Update NDEBUG).
Proof.
  unfold Update, DecodeIfFrameEmpty, TransferFrame, FrameFinished,
    ClearFrame; keeps_tac.
Qed.

Lemma SetPlaying_keeps_throttle (playing : bool) :
  keeps (Src := Src) (Snk := Snk) throttle (SetPlaying playing).
Proof. unfold SetPlaying; keeps_tac. Qed.

Lemma SetPlaying_keeps_cursor (playing : bool) :
  keeps (Src := Src) (Snk := Snk) cursor (SetPlaying playing).
Proof. unfold SetPlaying; keeps_tac. Qed.

Lemma CanAnnounceTime_keeps_cursor (micros : N) :
  keeps (Src := Src) (Snk := Snk) cursor (CanAnnounceTime micros).
Proof. unfold CanAnnounceTime; keeps_tac. Qed.

Lemma Emit_keeps_cursor (p : string) (broadcast : bool) :
  keeps (Src := Src) (Snk := Snk) cursor (Emit p broadcast).
Proof.
  unfold Emit, Position. pose proof CanAnnounceTime_keeps_cursor.
  keeps_tac; auto.
Qed.


(** *** The update cycle, step by step *)

Lemma Update_split (a : Pipe) :
  Update NDEBUG a =
  bind (Update_until_transfer NDEBUG) (Update_from_transfer NDEBUG) a.
Proof.
  unfold Update, Update_until_transfer, Update_from_transfer, bind.
  destruct (DecodeIfFrameEmpty NDEBUG a) as [a1 [more | e | l]];
    try reflexivity.
  destruct (when (negb more) _ a1) as [a2 [[] | e | l]]; reflexivity.
Qed.

(** The object [Update] has in hand when it decides about the transfer. *)
Lemma Update_until_transfer_eq (a : Pipe) :
  FrameConsistent a ->
  Update_until_transfer NDEBUG a =
  if frame_end a <=? frame_iterator a then
    match Decode (src a) with
    | (s', Returns r) =>
        let a1 := spec_replace_frame (snd r) (set_src s' a) in
        let a2 := if DecodeState_eqb (fst r) END_OF_FILE
                  then set_sink (SourceOut (sink a1)) a1 else a1 in
        (a2, Returns (negb (frame_end a2 <=? frame_iterator a2)))
    | (s', Throws e) => (set_src s' a, Throws e)
    | (s', Aborted l) => match l with end
    end
  else (a, Returns true).
Proof.
  intros Hok. unfold Update_until_transfer, bind at 1.
  rewrite DecodeIfFrameEmpty_eq by assumption.
  destruct (frame_end a <=? frame_iterator a) eqn:Hfin.
  - destruct (Decode (src a)) as [s' [[st f] | e | []]]; try reflexivity.
    destruct st; reflexivity.
  - cbn. unfold bind; cbn. rewrite Hfin. reflexivity.
Qed.

(** Up to the decision the frame stays consistent and the iterator does not
    move to before [begin]; the transfer is decided on exactly when there
    are bytes to send. *)
Lemma Update_until_transfer_frame (a a1 : Pipe) (t : bool) :
  FrameConsistent a ->
  Update_until_transfer NDEBUG a = (a1, Returns t) ->
  FrameConsistent a1
  /\ (t = true -> frame a1 <> [] /\ frame_iterator a1 < frame_end a1)
  /\ (t = false -> frame a1 = [] /\ frame_iterator a1 = 0)
  /\ (0 <= frame_iterator a -> 0 <= frame_iterator a1).
Proof.
  intros Hok Hrun. rewrite Update_until_transfer_eq in Hrun by assumption.
  destruct (frame_end a <=? frame_iterator a) eqn:Hfin.
  - destruct (Decode (src a)) as [s' [[st f] | e | []]]; try discriminate.
    cbn in Hrun.
    assert (Hshape : frame a1 = f /\ frame_iterator a1 = 0
                     /\ t = negb (Z.of_nat (List.length f) <=? 0)).
    { destruct st; inversion Hrun; subst; cbn; auto. }
    destruct Hshape as (Hf & Hit & Ht).
    unfold FrameConsistent, frame_end. rewrite Hf, Hit, Ht.
    destruct f as [| b f']; cbn [List.length].
    + cbn. intuition discriminate.
    + replace (Z.of_nat (S (List.length f')) <=? 0) with false
        by (symmetry; apply Z.leb_gt; lia).
      cbn [negb]. repeat split; try lia; try discriminate.
      right. split; [discriminate | lia].
  - inversion Hrun; subst a1 t.
    apply Z.leb_gt in Hfin.
    destruct Hok as [[Hf Hit] | [Hf Hin]].
    + unfold frame_end in Hfin. rewrite Hf, Hit in Hfin; cbn in Hfin; lia.
    + split; [right; auto |]. split; [auto |]. split; [discriminate | auto].
Qed.

(** [TransferFrame] on a frame with bytes in it, whatever the sink does. *)
Lemma TransferFrame_any_sink (a : Pipe) :
  frame_end a <> 0 ->
  TransferFrame NDEBUG a =
  let a1 := spec_transfer a in
  if frame_end a <=? frame_iterator a1
  then (spec_replace_frame [] a1, Returns tt)
  else if NDEBUG || (0 <=? frame_iterator a1)
       then (a1, Returns tt)
       else (a1, Aborted Transfer_iterator_in_frame).
Proof.
  intros Hne.
  unfold TransferFrame, FrameFinished, ClearFrame, bind, ret, gets, modify,
    when, assert, spec_transfer, spec_replace_frame.
  rewrite frame_empty_end.
  unfold frame_end, frame_begin in *.
  destruct a as [s k f it ann lt]; cbn in *.
  assert (Hne' : (Z.of_nat (List.length f) =? 0) = false)
    by (apply Z.eqb_neq; lia).
  repeat (cbn; rewrite ?orb_true_r, ?Hne').
  destruct (Transfer k f it) as [k' it']; cbn in *.
  destruct (Z.of_nat (List.length f) <=? it') eqn:Hfin.
  - repeat (cbn; rewrite ?orb_true_r). reflexivity.
  - apply Z.leb_gt in Hfin.
    assert (H1 : (it' <? Z.of_nat (List.length f)) = true)
      by (apply Z.ltb_lt; lia).
    repeat (cbn; rewrite ?orb_true_r, ?H1, ?Hne', ?andb_true_r,
              ?frame_empty_end; unfold frame_end).
    destruct (NDEBUG || (0 <=? it')); reflexivity.
Qed.


Lemma spec_transfer_frame (a : Pipe) :
  frame (spec_transfer a) = frame a
  /\ frame_iterator (spec_transfer a)
     = snd (Transfer (sink a) (frame a) (frame_iterator a)).
Proof.
  unfold spec_transfer.
  destruct (Transfer (sink a) (frame a) (frame_iterator a)); split;
    reflexivity.
Qed.

(** After [TransferFrame] the frame is consistent, whatever the sink did
    and however the call ended. *)
Lemma TransferFrame_consistent (a : Pipe) :
  frame a <> [] -> FrameConsistent (fst (TransferFrame NDEBUG a)).
Proof.
  intros Hne. pose proof (proj1 (frame_end_nonempty a) Hne) as Hend.
  rewrite TransferFrame_any_sink by assumption. cbv zeta.
  destruct (spec_transfer_frame a) as [Hf Hit].
  assert (Hlive : (frame_end a <=? frame_iterator (spec_transfer a)) = false
                  -> FrameConsistent (spec_transfer a)).
  { intros Hfin. apply Z.leb_gt in Hfin. right.
    rewrite Hf. split; [assumption |].
    unfold frame_end in *. rewrite Hf. assumption. }
  destruct (frame_end a <=? frame_iterator (spec_transfer a)).
  - left. split; reflexivity.
  - destruct (NDEBUG || (0 <=? frame_iterator (spec_transfer a))); auto.
Qed.

(** If it does not abort, and the frame is guarded, the iterator is not
    before [begin] either. *)
Lemma TransferFrame_cursor (a : Pipe) :
  frame_checked NDEBUG ->
  0 <= frame_iterator a < frame_end a ->
  aborted (snd (TransferFrame NDEBUG a)) = false ->
  0 <= frame_iterator (fst (TransferFrame NDEBUG a)).
Proof.
  intros Hchk Hin. rewrite TransferFrame_any_sink by lia. cbv zeta.
  destruct (spec_transfer_frame a) as [Hf Hit].
  destruct (frame_end a <=? frame_iterator (spec_transfer a)) eqn:Hfin.
  - intros _. cbn. lia.
  - assert (Hlow :
             (NDEBUG || (0 <=? frame_iterator (spec_transfer a))) = true
             -> 0 <= frame_iterator (spec_transfer a)).
    { intros Hc. destruct Hchk as [Hdbg | Hadv].
      - rewrite Hdbg in Hc. apply Z.leb_le. exact Hc.
      - rewrite Hit. specialize (Hadv (sink a) (frame a) (frame_iterator a)).
        unfold frame_end in Hin. lia. }
    destruct (NDEBUG || (0 <=? frame_iterator (spec_transfer a)));
      cbn; [auto | discriminate].
Qed.

Lemma Update_until_transfer_consistent (a : Pipe) :
  FrameConsistent a ->
  FrameConsistent (fst (Update_until_transfer NDEBUG a))
  /\ (0 <= frame_iterator a ->
      0 <= frame_iterator (fst (Update_until_transfer NDEBUG a))).
Proof.
  intros Hok.
  destruct (Update_until_transfer NDEBUG a) as [a1 [t | e | l]] eqn:Hrun.
  - destruct (Update_until_transfer_frame a a1 t Hok Hrun)
      as (H1 & _ & _ & H2). auto.
  - rewrite Update_until_transfer_eq in Hrun by assumption.
    destruct (frame_end a <=? frame_iterator a); [| discriminate].
    destruct (Decode (src a)) as [s' [r | e' | []]]; try discriminate.
    inversion Hrun; subst. auto.
  - rewrite Update_until_transfer_eq in Hrun by assumption.
    destruct (frame_end a <=? frame_iterator a); [| discriminate].
    destruct (Decode (src a)) as [s' [r | e | []]]; discriminate.
Qed.

(** [Update] keeps the frame consistent, with any sink and however it
    ends. *)
Lemma Update_consistent (a : Pipe) :
  FrameConsistent a -> FrameConsistent (fst (Update NDEBUG a)).
Proof.
  intros Hok. rewrite Update_split. unfold bind.
  destruct (Update_until_transfer_consistent a Hok) as [Hok1 _].
  destruct (Update_until_transfer NDEBUG a) as [a1 [t | e | l]] eqn:Hrun;
    cbn in Hok1; auto.
  destruct (Update_until_transfer_frame a a1 t Hok Hrun) as (_ & Ht & _).
  unfold Update_from_transfer, bind, when.
  destruct t.
  - pose proof (TransferFrame_consistent a1 (proj1 (Ht eq_refl))) as Htr.
    destruct (TransferFrame NDEBUG a1) as [a2 [[] | e | l]]; cbn in *; auto.
  - cbn. auto.
Qed.

(** With the frame guarded, an [Update] that does not abort also keeps the
    iterator from before [begin]. *)
Lemma Update_cursor (a : Pipe) :
  frame_checked NDEBUG ->
  FrameCursorOk a ->
  aborted (snd (Update NDEBUG a)) = false ->
  FrameCursorOk (fst (Update NDEBUG a)).
Proof.
  intros Hchk Hok Hrun. apply FrameCursorOk_iff in Hok.
  destruct Hok as [Hok Hlow]. apply FrameCursorOk_iff.
  split; [apply Update_consistent; assumption |].
  revert Hrun. rewrite Update_split. unfold bind.
  destruct (Update_until_transfer_consistent a Hok) as [_ Hlow1].
  specialize (Hlow1 Hlow).
  destruct (Update_until_transfer NDEBUG a) as [a1 [t | e | l]] eqn:Hrun1;
    cbn in Hlow1; auto.
  destruct (Update_until_transfer_frame a a1 t Hok Hrun1) as (_ & Ht & _).
  unfold Update_from_transfer, bind, when.
  destruct t.
  - destruct (Ht eq_refl) as [_ Hend].
    pose proof (TransferFrame_cursor a1 Hchk (conj Hlow1 Hend)) as Htr.
    destruct (TransferFrame NDEBUG a1) as [a2 [[] | e | l]]; cbn in *; auto.
  - cbn. auto.
Qed.

Lemma Seek_eq (position : N) (a : Pipe) :
  Seek position a =
  match SourceSeek (src a) (SamplesFromMicros (src a) position) with
  | (s', Returns actual) =>
      (mkPipeAudio s' (SetPosition (sink a) actual) [] 0 false (last_time a),
       Returns tt)
  | (s', Throws e) => (set_src s' a, Throws e)
  | (s', Aborted l) => match l with end
  end.
Proof.
  unfold Seek, ClearFrame, on_src, bind, gets, modify. cbn.
  destruct (SourceSeek (src a) (SamplesFromMicros (src a) position))
    as [s' [actual | e | []]]; reflexivity.
Qed.

Lemma Seek_consistent (position : N) (a : Pipe) :
  (FrameConsistent a -> FrameConsistent (fst (Seek position a)))
  /\ (FrameCursorOk a -> FrameCursorOk (fst (Seek position a))).
Proof.
  rewrite Seek_eq.
  destruct (SourceSeek (src a) (SamplesFromMicros (src a) position))
    as [s' [actual | e | []]]; cbn; split; auto; intros _; left; split;
    reflexivity.
Qed.

Lemma same_cursor (a a' : Pipe) :
  cursor a' = cursor a ->
  (FrameConsistent a -> FrameConsistent a')
  /\ (FrameCursorOk a -> FrameCursorOk a').
Proof.
  unfold cursor, FrameConsistent, FrameCursorOk, frame_end. intros Heq.
  injection Heq as Hf Hit. rewrite Hf, Hit. auto.
Qed.

Lemma bind_ret_fst {A B} (m : M Assertion Pipe A) (f : A -> B) (a : Pipe) :
  fst (bind m (fun x => ret (f x)) a) = fst (m a).
Proof. unfold bind. destruct (m a) as [a' [x | e | l]]; reflexivity. Qed.

Lemma bind_ret_aborted {A B} (m : M Assertion Pipe A) (f : A -> B)
      (a : Pipe) :
  aborted (snd (bind m (fun x => ret (f x)) a)) = aborted (snd (m a)).
Proof. unfold bind. destruct (m a) as [a' [x | e | l]]; reflexivity. Qed.

(** What a call through the interface does to the object and whether it
    aborts are those of the method called. *)
Lemma PipeAudio_call_fst (op : Op) (a : Pipe) :
  fst (PipeAudio_call NDEBUG op a) =
  match op with
  | OpUpdate => fst (Update NDEBUG a)
  | OpEmit p b => fst (Emit p b a)
  | OpSetPlaying b => fst (SetPlaying b a)
  | OpSeek p => fst (Seek p a)
  | OpPosition => a
  end.
Proof.
  destruct op as [| p b | b | p |]; unfold PipeAudio_call;
    apply bind_ret_fst.
Qed.

Lemma PipeAudio_call_aborted (op : Op) (a : Pipe) :
  aborted (snd (PipeAudio_call NDEBUG op a)) =
  match op with
  | OpUpdate => aborted (snd (Update NDEBUG a))
  | OpEmit p b => aborted (snd (Emit p b a))
  | OpSetPlaying b => aborted (snd (SetPlaying b a))
  | OpSeek p => aborted (snd (Seek p a))
  | OpPosition => false
  end.
Proof.
  destruct op as [| p b | b | p |]; unfold PipeAudio_call;
    apply bind_ret_aborted.
Qed.

(** Every object a program can hold has a consistent frame. *)
Lemma Reachable_consistent (a : Pipe) :
  Reachable NDEBUG a -> FrameConsistent a.
Proof.
  intros Hreach. induction Hreach as [s k it0 lt0 | op a Hreach IH Hrun].
  - left. split; reflexivity.
  - rewrite PipeAudio_call_fst.
    destruct op as [| p b | b | p |].
    + apply Update_consistent; assumption.
    + apply (same_cursor a); [apply Emit_keeps_cursor | exact IH].
    + apply (same_cursor a); [apply SetPlaying_keeps_cursor | exact IH].
    + apply Seek_consistent; exact IH.
    + exact IH.
Qed.

(** With the frame guarded, its iterator is inside the frame as well. *)
Lemma Reachable_cursor (a : Pipe) :
  frame_checked NDEBUG -> Reachable NDEBUG a -> FrameCursorOk a.
Proof.
  intros Hchk Hreach. induction Hreach as [s k it0 lt0 | op a Hreach IH Hrun].
  - left. split; reflexivity.
  - rewrite PipeAudio_call_fst. rewrite PipeAudio_call_aborted in Hrun.
    destruct op as [| p b | b | p |].
    + apply Update_cursor; assumption.
    + apply (same_cursor a); [apply Emit_keeps_cursor | exact IH].
    + apply (same_cursor a); [apply SetPlaying_keeps_cursor | exact IH].
    + apply Seek_consistent; exact IH.
    + exact IH.
Qed.

(** *** The update cycle against the specification's steps *)

Lemma spec_frame_finished_eq (a : Pipe) :
  FrameCursorOk a ->
  spec_frame_finished a = (frame_end a <=? frame_iterator a).
Proof.
  unfold spec_frame_finished, FrameCursorOk. rewrite frame_empty_end.
  intros [[Hf Hit] | Hin].
  - unfold frame_end. rewrite Hf, Hit. reflexivity.
  - replace (frame_end a =? 0) with false by (symmetry; apply Z.eqb_neq; lia).
    replace (frame_iterator a =? frame_end a) with false
      by (symmetry; apply Z.eqb_neq; lia).
    symmetry; apply Z.leb_gt; lia.
Qed.

Lemma spec_decode_step_eq (a : Pipe) :
  FrameCursorOk a ->
  spec_decode_step a =
  if frame_end a <=? frame_iterator a then
    match Decode (src a) with
    | (s', Returns r) =>
        let a1 := spec_replace_frame (snd r) (set_src s' a) in
        (if DecodeState_eqb (fst r) END_OF_FILE
         then set_sink (SourceOut (sink a1)) a1 else a1,
         Returns tt)
    | (s', Throws e) => (set_src s' a, Throws e)
    | (s', Aborted l) => match l with end
    end
  else (a, Returns tt).
Proof.
  intros Hok. unfold spec_decode_step, bind at 1, gets at 1.
  rewrite spec_frame_finished_eq by assumption.
  destruct (frame_end a <=? frame_iterator a); [| reflexivity].
  unfold when at 1, bind at 1, on_src.
  destruct (Decode (src a)) as [s' [[st f] | e | []]]; try reflexivity.
  destruct st; reflexivity.
Qed.

(** From the decision about the transfer on, [Update] does what steps 2
    and 3 of the specification say. *)
Lemma transfer_phase_eq (a : Pipe) :
  Transfer_advances -> Transfer_stops_at_end ->
  FrameCursorOk a ->
  Update_from_transfer NDEBUG (negb (frame_end a <=? frame_iterator a)) a =
  bind spec_transfer_step (fun _ => gets (fun a => SinkState (sink a))) a.
Proof.
  intros Hadv Hstop Hok.
  destruct Hok as [[Hf Hit] | Hin].
  - unfold Update_from_transfer, spec_transfer_step, bind, gets, when,
      frame_end, frame_empty.
    rewrite Hf, Hit. reflexivity.
  - replace (frame_end a <=? frame_iterator a) with false
      by (symmetry; apply Z.leb_gt; lia).
    assert (Hne : frame_empty a = false).
    { rewrite frame_empty_end. apply Z.eqb_neq; lia. }
    unfold Update_from_transfer, spec_transfer_step.
    unfold bind at 1. cbn [negb when].
    rewrite TransferFrame_eq by assumption.
    unfold bind, modify, gets, when.
    cbv beta iota. rewrite Hne. cbv beta iota. cbn [negb].
    destruct (spec_transfer_frame a) as [Hf Hit].
    specialize (Hstop (sink a) (frame a) (frame_iterator a) Hin).
    rewrite <- Hit in Hstop.
    assert (Hend : frame_end (spec_transfer a) = frame_end a)
      by (unfold frame_end; rewrite Hf; reflexivity).
    rewrite Hend.
    destruct (frame_end a <=? frame_iterator (spec_transfer a)) eqn:Hfin.
    + apply Z.leb_le in Hfin.
      replace (frame_iterator (spec_transfer a) =? frame_end a) with true
        by (symmetry; apply Z.eqb_eq; unfold frame_end in *; lia).
      reflexivity.
    + apply Z.leb_gt in Hfin.
      replace (frame_iterator (spec_transfer a) =? frame_end a) with false
        by (symmetry; apply Z.eqb_neq; lia).
      reflexivity.
Qed.

Lemma Update_refines_spec_from (a : Pipe) :
  Transfer_advances -> Transfer_stops_at_end ->
  FrameCursorOk a ->
  Update NDEBUG a = spec_Update a.
Proof.
  intros Hadv Hstop Hok.
  pose proof (proj1 (FrameCursorOk_iff a) Hok) as [Hcons Hlow].
  rewrite Update_split. unfold spec_Update, bind at 1 2.
  rewrite Update_until_transfer_eq, spec_decode_step_eq by assumption.
  destruct (frame_end a <=? frame_iterator a) eqn:Hfin.
  - destruct (Update_until_transfer_consistent a Hcons) as [Hc1 Hl1].
    specialize (Hl1 Hlow).
    rewrite Update_until_transfer_eq, Hfin in Hc1, Hl1 by assumption.
    destruct (Decode (src a)) as [s' [[st f] | e | []]]; try reflexivity.
    cbv zeta. apply transfer_phase_eq; try assumption.
    apply FrameCursorOk_iff. split; assumption.
  - apply Z.leb_gt in Hfin.
    replace true with (negb (frame_end a <=? frame_iterator a))
      by (apply negb_true_iff, Z.leb_gt; lia).
    apply transfer_phase_eq; assumption.
Qed.

(** C1.  One call of [Update] performs the specification's cycle: on every
    object a program can hold, with a sink that moves the iterator forwards
    and not past the end, [Update] and the three-step cycle [spec_Update]
    (decode and replace when the frame is finished, [SourceOut] exactly on
    END_OF_FILE; transfer when the frame is non-empty, clearing it when the
    iterator reaches the end; answer the sink's state) leave the same object
    and end the same way. *)
Theorem Update_performs_cycle (a : Pipe) :
  Transfer_advances -> Transfer_stops_at_end ->
  Reachable NDEBUG a ->
  Update NDEBUG a = spec_Update a.
Proof.
  intros Hadv Hstop Hreach.
  apply Update_refines_spec_from; try assumption.
  apply Reachable_cursor; [right |]; assumption.
Qed.

(** *** Which assertions can fail *)

(** The only assertion of [Update] that can fail is the last one of
    [TransferFrame], and only in a build that keeps the assertions. *)
Lemma Update_aborted (a : Pipe) (l : Assertion) :
  FrameConsistent a ->
  snd (Update NDEBUG a) = Aborted l ->
  l = Transfer_iterator_in_frame /\ NDEBUG = false.
Proof.
  intros Hok. rewrite Update_split. unfold bind.
  destruct (Update_until_transfer NDEBUG a) as [a1 [t | e | l']] eqn:Hrun.
  - destruct (Update_until_transfer_frame a a1 t Hok Hrun) as (_ & Ht & _).
    unfold Update_from_transfer, bind, when. destruct t; [| discriminate].
    destruct (Ht eq_refl) as [Hne _].
    rewrite TransferFrame_any_sink by (apply frame_end_nonempty; assumption).
    cbv zeta.
    destruct (frame_end a1 <=? frame_iterator (spec_transfer a1));
      [discriminate |].
    destruct NDEBUG; [discriminate |]. cbn [orb].
    destruct (0 <=? frame_iterator (spec_transfer a1)); [discriminate |].
    cbn. intros Heq; inversion Heq; subst l. split; reflexivity.
  - discriminate.
  - rewrite Update_until_transfer_eq in Hrun by assumption.
    destruct (frame_end a <=? frame_iterator a); [| discriminate].
    destruct (Decode (src a)) as [s' [r | e | []]]; discriminate.
Qed.

(** With a sink that never moves the iterator backwards, no assertion of
    [Update] fails: the call returns, or ends with what [Decode] threw. *)
Lemma Update_never_aborts (a : Pipe) :
  Transfer_advances -> FrameCursorOk a ->
  aborted (snd (Update NDEBUG a)) = false.
Proof.
  intros Hadv Hok.
  pose proof (proj1 (FrameCursorOk_iff a) Hok) as [Hcons Hlow].
  rewrite Update_split. unfold bind.
  destruct (Update_until_transfer_consistent a Hcons) as [_ Hl1].
  specialize (Hl1 Hlow).
  destruct (Update_until_transfer NDEBUG a) as [a1 [t | e | l]] eqn:Hrun.
  - destruct (Update_until_transfer_frame a a1 t Hcons Hrun) as (_ & Ht & _).
    unfold Update_from_transfer, bind, when. destruct t; [| reflexivity].
    destruct (Ht eq_refl) as [_ Hend]. cbn in Hl1.
    rewrite TransferFrame_eq by auto. reflexivity.
  - reflexivity.
  - rewrite Update_until_transfer_eq in Hrun by assumption.
    destruct (frame_end a <=? frame_iterator a); [| discriminate].
    destruct (Decode (src a)) as [s' [r | e | []]]; discriminate.
Qed.

(** When [Decode] returns (or is not called, the frame being in progress)
    and the sink never moves the iterator backwards, [Update] returns. *)
Lemma Update_returns (a : Pipe) :
  Transfer_advances -> FrameCursorOk a ->
  returned (snd (Decode (src a))) = true ->
  returned (snd (Update NDEBUG a)) = true.
Proof.
  intros Hadv Hok Hdec.
  pose proof (proj1 (FrameCursorOk_iff a) Hok) as [Hcons Hlow].
  rewrite Update_split. unfold bind.
  destruct (Update_until_transfer_consistent a Hcons) as [_ Hl1].
  specialize (Hl1 Hlow).
  destruct (Update_until_transfer NDEBUG a) as [a1 [t | e | l]] eqn:Hrun.
  - destruct (Update_until_transfer_frame a a1 t Hcons Hrun) as (_ & Ht & _).
    unfold Update_from_transfer, bind, when. destruct t; [| reflexivity].
    destruct (Ht eq_refl) as [_ Hend]. cbn in Hl1.
    rewrite TransferFrame_eq by auto. reflexivity.
  - rewrite Update_until_transfer_eq in Hrun by assumption.
    destruct (frame_end a <=? frame_iterator a); [| discriminate].
    destruct (Decode (src a)) as [s' [r | e' | []]]; discriminate.
  - rewrite Update_until_transfer_eq in Hrun by assumption.
    destruct (frame_end a <=? frame_iterator a); [| discriminate].
    destruct (Decode (src a)) as [s' [r | e | []]]; discriminate.
Qed.

(** C3.  After every call of [Update] that returns, the frame is empty or
    the iterator lies in [[begin, end)]: for every object a program can
    hold, in a build that keeps the assertions or with a sink that never
    moves the iterator backwards.  With such a sink the call does complete:
    no assertion fails, and [Update] returns whenever the source's [Decode]
    does. *)
Theorem Update_exit_invariant (a : Pipe) :
  frame_checked NDEBUG ->
  Reachable NDEBUG a ->
  (forall (a' : Pipe) (st : State),
      Update NDEBUG a = (a', Returns st) -> FrameInvariant a')
  /\ (Transfer_advances ->
      aborted (snd (Update NDEBUG a)) = false
      /\ (returned (snd (Decode (src a))) = true ->
          returned (snd (Update NDEBUG a)) = true)).
Proof.
  intros Hchk Hreach.
  pose proof (Reachable_cursor a Hchk Hreach) as Hok. split.
  - intros a' st Hrun.
    assert (Hok' : FrameCursorOk a').
    { replace a' with (fst (Update NDEBUG a)) by (rewrite Hrun; reflexivity).
      apply Update_cursor; try assumption. rewrite Hrun; reflexivity. }
    unfold FrameInvariant, frame_begin.
    destruct Hok' as [[Hf _] | Hin]; [left | right]; assumption.
  - intros Hadv. split.
    + apply Update_never_aborts; assumption.
    + apply Update_returns; assumption.
Qed.

(** C10.  Every call [Update] makes to [TransferFrame] happens with bytes in
    the frame and the iterator before [end], so the assertion at the entry
    of [TransferFrame] cannot fail: on every object a program can hold (built
    by the constructor, then used through any sequence of [Update], [Seek]
    and the other operations), with any sink and in any build.  [Update] is
    [Update_until_transfer] followed by [Update_from_transfer], which calls
    [TransferFrame] exactly when the former answers [true]. *)
Theorem TransferFrame_precondition_holds (a : Pipe) :
  Reachable NDEBUG a ->
  Update NDEBUG a =
    bind (Update_until_transfer NDEBUG) (Update_from_transfer NDEBUG) a
  /\ (forall a1 : Pipe,
        Update_until_transfer NDEBUG a = (a1, Returns true) ->
        frame a1 <> []
        /\ frame_iterator a1 < frame_end a1
        /\ snd (TransferFrame NDEBUG a1) <> Aborted Transfer_frame_nonempty)
  /\ snd (Update NDEBUG a) <> Aborted Transfer_frame_nonempty.
Proof.
  intros Hreach.
  pose proof (Reachable_consistent a Hreach) as Hok.
  split; [apply Update_split |]. split.
  - intros a1 Hrun.
    destruct (Update_until_transfer_frame a a1 true Hok Hrun)
      as (_ & Ht & _).
    destruct (Ht eq_refl) as [Hne Hend]. split; [| split]; try assumption.
    rewrite TransferFrame_any_sink by (apply frame_end_nonempty; assumption).
    cbv zeta.
    destruct (frame_end a1 <=? frame_iterator (spec_transfer a1));
      [discriminate |].
    destruct (NDEBUG || (0 <=? frame_iterator (spec_transfer a1)));
      discriminate.
  - intros Hrun. destruct (Update_aborted a _ Hok Hrun) as (Hl & _).
    discriminate.
Qed.

(** *** Seeking and the throttle *)

Lemma spec_Seek_eq (position : N) (a : Pipe) :
  spec_Seek position a =
  match SourceSeek (src a) (SamplesFromMicros (src a) position) with
  | (s', Returns actual) =>
      (mkPipeAudio s' (SetPosition (sink a) actual) [] 0 false (last_time a),
       Returns tt)
  | (s', Throws e) => (set_src s' a, Throws e)
  | (s', Aborted l) => match l with end
  end.
Proof.
  unfold spec_Seek, on_src, bind, gets, modify. cbn.
  destruct (SourceSeek (src a) (SamplesFromMicros (src a) position))
    as [s' [actual | e | []]]; reflexivity.
Qed.

Lemma CanAnnounceTime_eq (micros : N) (a : Pipe) :
  CanAnnounceTime micros a =
  let secs := (micros / 1000000)%N in
  let announce := negb (announced_time a) || (last_time a <? secs)%N in
  (if announce then set_last_time secs (set_announced_time true a) else a,
   Returns announce).
Proof.
  unfold CanAnnounceTime, bind, gets, modify, when, ret. cbv zeta.
  rewrite N.Div0.div_div. change (1000 * 1000)%N with 1000000%N.
  destruct (negb (announced_time a) || (last_time a <? micros / 1000000)%N);
    reflexivity.
Qed.

(** C2.  [CanAnnounceTime] answers [true] exactly when nothing has been
    announced since the last reset or the whole second of [micros] (its
    quotient by 1,000,000) exceeds the last announced one; when it answers
    [true] it records that second and that an announcement has been made,
    and when it answers [false] it changes nothing. *)
Theorem CanAnnounceTime_spec (micros : N) (a : Pipe) :
  exists announce : bool,
    snd (CanAnnounceTime micros a) = Returns announce
    /\ (announce = true <->
        announced_time a = false \/ (last_time a < micros / 1000000)%N)
    /\ fst (CanAnnounceTime micros a) =
       if announce
       then mkPipeAudio (src a) (sink a) (frame a) (frame_iterator a)
                        true (micros / 1000000)%N
       else a.
Proof.
  rewrite CanAnnounceTime_eq. cbv zeta.
  exists (negb (announced_time a) || (last_time a <? micros / 1000000)%N).
  split; [reflexivity |]. split.
  - rewrite orb_true_iff, negb_true_iff, N.ltb_lt. reflexivity.
  - cbn [fst].
    destruct (negb (announced_time a) || (last_time a <? micros / 1000000)%N);
      reflexivity.
Qed.

(** C4.  A seek to [position] converts it to samples with the source, asks
    the source to seek there, hands the sample the source achieved to the
    sink's [SetPosition], and leaves the frame cleared and the announced-time
    flag reset, so that the next [CanAnnounceTime] answers [true]; it is the
    specification's seek.  If the source's seek throws, the exception leaves
    [Seek] before the sink, the frame or the flag are touched. *)
Theorem Seek_spec (position : N) (a : Pipe) :
  Seek position a = spec_Seek position a
  /\ match SourceSeek (src a) (SamplesFromMicros (src a) position) with
     | (s', Returns actual) =>
         Seek position a =
           (mkPipeAudio s' (SetPosition (sink a) actual) [] 0 false
                        (last_time a),
            Returns tt)
         /\ forall micros : N,
             snd (CanAnnounceTime micros (fst (Seek position a)))
             = Returns true
     | (s', Throws e) =>
         Seek position a =
           (mkPipeAudio s' (sink a) (frame a) (frame_iterator a)
                        (announced_time a) (last_time a),
            Throws e)
     | (_, Aborted l) => match l return Prop with end
     end.
Proof.
  rewrite Seek_eq, spec_Seek_eq. split; [reflexivity |].
  destruct (SourceSeek (src a) (SamplesFromMicros (src a) position))
    as [s' [actual | e | []]].
  - split; [reflexivity |]. intros micros.
    rewrite CanAnnounceTime_eq. reflexivity.
  - reflexivity.
Qed.


(** *** Broadcasts of the elapsed time *)

Lemma Emit_elapsed_broadcast (a : Pipe) :
  Emit "/player/time/elapsed" true a =
  let micros := MicrosFromSamples (src a) (SinkPosition (sink a)) in
  let secs := whole_seconds micros in
  if negb (announced_time a) || (last_time a <? secs)%N
  then (set_last_time secs (set_announced_time true a),
        Returns (Some (Res "Entry" "/player/time/elapsed" (to_string micros))))
  else (a, Returns None).
Proof.
  unfold Emit, Position, whole_seconds. cbn [String.eqb Ascii.eqb Bool.eqb].
  unfold bind at 1. unfold gets at 1. cbn [negb].
  unfold bind. rewrite CanAnnounceTime_eq. cbv zeta.
  destruct (negb (announced_time a) || _); reflexivity.
Qed.

(** One call that is not a seek: if it broadcasts a position, the throttle
    let it through and now records it; if not, the throttle is as before. *)
Lemma call_throttle (op : Op) (a : Pipe) :
  is_seek op = false ->
  match announced_position op a with
  | Some m =>
      (announced_time a = false \/ (last_time a < whole_seconds m)%N)
      /\ throttle (fst (PipeAudio_call NDEBUG op a)) = (true, whole_seconds m)
  | None => throttle (fst (PipeAudio_call NDEBUG op a)) = throttle a
  end.
Proof.
  intros Hseek. rewrite PipeAudio_call_fst.
  destruct op as [| p b | b | p |]; cbn [announced_position];
    try discriminate.
  - apply Update_keeps_throttle.
  - destruct b.
    + destruct (String.eqb p "/player/time/elapsed") eqn:Hp.
      * apply String.eqb_eq in Hp. subst p.
        rewrite Emit_elapsed_broadcast. cbv zeta.
        destruct (negb (announced_time a) || _) eqn:Hcan; [| reflexivity].
        split; [| reflexivity].
        rewrite orb_true_iff, negb_true_iff, N.ltb_lt in Hcan. exact Hcan.
      * unfold Emit. rewrite Hp.
        destruct (String.eqb p "/control/state");
          [| destruct (String.eqb p "/player/file")]; reflexivity.
    + unfold Emit.
      destruct (String.eqb p "/control/state");
        [| destruct (String.eqb p "/player/file");
           [| destruct (String.eqb p "/player/time/elapsed")]];
        reflexivity.
  - apply SetPlaying_keeps_throttle.
  - reflexivity.
Qed.

Lemma broadcast_positions_increase (ops : list Op) (a : Pipe) :
  forallb (fun op => negb (is_seek op)) ops = true ->
  StronglySorted N.lt (map whole_seconds (broadcast_positions NDEBUG ops a))
  /\ (announced_time a = true ->
      Forall (fun m => (last_time a < whole_seconds m)%N)
             (broadcast_positions NDEBUG ops a)).
Proof.
  revert a. induction ops as [| op rest IH]; intros a Hops.
  - split; constructor.
  - cbn in Hops. apply andb_true_iff in Hops. destruct Hops as [Hop Hrest].
    apply negb_true_iff in Hop.
    pose proof (call_throttle op a Hop) as Hstep.
    cbn [broadcast_positions].
    destruct (PipeAudio_call NDEBUG op a) as [a' r] eqn:Hcall.
    cbn [fst] in Hstep. unfold throttle in Hstep.
    destruct (IH a' Hrest) as [IHsorted IHabove].
    destruct (announced_position op a) as [m |].
    + destruct Hstep as [Hlet Hrec]. injection Hrec as Hann Hlast.
      specialize (IHabove Hann). rewrite Hlast in IHabove.
      assert (Hm : announced_time a = true ->
                   (last_time a < whole_seconds m)%N).
      { intros Ha. destruct Hlet as [Hn | Hlt]; [congruence | exact Hlt]. }
      destruct (aborted r).
      * split; [repeat constructor |].
        intros Ha. repeat constructor. auto.
      * cbn [app map]. split.
        -- constructor; [exact IHsorted |].
           apply Forall_map. exact IHabove.
        -- intros Ha. constructor; [auto |].
           eapply Forall_impl; [| exact IHabove].
           intros x Hx. cbv beta in Hx. specialize (Hm Ha). lia.
    + injection Hstep as Hann Hlast.
      destruct (aborted r); cbn [app].
      * split; constructor.
      * split; [exact IHsorted |].
        rewrite <- Hann, <- Hlast. exact IHabove.
Qed.

(** C5.  Through any sequence of calls without a seek (the object stays the
    one that was loaded), whatever positions the sink reports, the positions
    that are broadcast have whole seconds that never decrease from one
    broadcast to a later one. *)
Theorem broadcast_positions_monotone (ops : list Op) (a : Pipe) :
  forallb (fun op => negb (is_seek op)) ops = true ->
  StronglySorted N.le
    (map whole_seconds (broadcast_positions NDEBUG ops a)).
Proof.
  intros Hops.
  destruct (broadcast_positions_increase ops a Hops) as [Hsorted _].
  induction Hsorted as [| s l Hl IH Hall]; constructor; [exact IH |].
  eapply Forall_impl; [| exact Hall]. intros x Hx. cbv beta in Hx. lia.
Qed.

End AudioFacts.

(** *** NoAudio *)

(** C6, as stated, fails: asking [NoAudio] for its state through [Emit]
    succeeds, with the entry "Ejected", so [Update] is not the only
    operation that returns. *)
Lemma NoAudio_state_query_succeeds :
  Audio.NoAudio_call "no file" (Audio.OpEmit "/control/state" false)
                     Audio.mkNoAudio
  = (Audio.mkNoAudio,
     Returns (Audio.AResponse
                (Some (Audio.Res "Entry" "/control/state" "Ejected"))))
  /\ ~ Audio.NoAudio_only_Update_succeeds "no file".
Proof.
  split; [reflexivity |].
  intros Honly.
  specialize (Honly (Audio.OpEmit "/control/state" false) eq_refl).
  discriminate.
Qed.

(** C6, amended.  On [NoAudio], [SetPlaying] (with either argument), [Seek]
    and [Position] throw the no-file error with the message
    [MSG_CMD_NEEDS_LOADED] and leave the object as it was; [Update] returns
    the state [NONE]; [Emit] returns too, with the entry "Ejected" for the
    path of the state and with nothing for any other path.  The operations
    that return are therefore [Update] and [Emit]. *)
Theorem NoAudio_operations (MSG_CMD_NEEDS_LOADED : string)
        (n : Audio.NoAudio) :
  (forall playing : bool,
      Audio.NoAudio_SetPlaying MSG_CMD_NEEDS_LOADED playing n
      = (n, Throws (Error NO_FILE MSG_CMD_NEEDS_LOADED)))
  /\ (forall position : N,
         Audio.NoAudio_Seek MSG_CMD_NEEDS_LOADED position n
         = (n, Throws (Error NO_FILE MSG_CMD_NEEDS_LOADED)))
  /\ Audio.NoAudio_Position MSG_CMD_NEEDS_LOADED n
     = (n, Throws (Error NO_FILE MSG_CMD_NEEDS_LOADED))
  /\ Audio.NoAudio_Update n = (n, Returns Audio.NONE)
  /\ (forall (path : string) (broadcast : bool),
         Audio.NoAudio_Emit path broadcast n
         = (n, Returns (if String.eqb path "/control/state"
                        then Some (Audio.Res "Entry" "/control/state"
                                             "Ejected")
                        else None)))
  /\ (forall op : Audio.Op,
         returned (snd (Audio.NoAudio_call MSG_CMD_NEEDS_LOADED op n)) = true
         <-> op = Audio.OpUpdate
             \/ exists path broadcast, op = Audio.OpEmit path broadcast).
Proof.
  split; [reflexivity |]. split; [reflexivity |].
  split; [reflexivity |]. split; [reflexivity |]. split.
  - intros path broadcast. unfold Audio.NoAudio_Emit.
    destruct (String.eqb path "/control/state"); reflexivity.
  - intros op. split.
    + destruct op as [| p b | b | p |]; cbn; intros H; try discriminate.
      * left; reflexivity.
      * right; exists p, b; reflexivity.
    + intros [-> | (p & b & ->)]; [reflexivity |].
      unfold Audio.NoAudio_call, Audio.NoAudio_Emit, Method.bind.
      destruct (String.eqb p "/control/state"); reflexivity.
Qed.

(** *** The theorems at work on the test source and sink *)

Example fresh_audio_updates :
  Audio.Update false Audio.fresh_audio
  = (Audio.audio_in_progress, Returns Audio.STOPPED)
  /\ Audio.frame Audio.audio_in_progress = [Byte.x01; Byte.x02; Byte.x03]
  /\ Audio.frame_iterator Audio.audio_in_progress = 2.
Proof. repeat split. Qed.

(** Without the assertions, a sink that moves the iterator backwards takes it
    out of the frame: the guard of the theorems on the frame is needed. *)
Example backward_sink_breaks_invariant :
  let a := Audio.mkPipeAudio Audio.test_source Audio.mkBackwardSink
                             [] 0 false 0%N in
  Audio.frame_iterator (fst (Audio.Update true a)) = -1
  /\ snd (Audio.Update true a) = Returns Audio.STOPPED
  /\ snd (Audio.Update false a) = Aborted Audio.Transfer_iterator_in_frame.
Proof. repeat split. Qed.

Example playing_ticks_broadcast :
  Audio.broadcast_positions false Audio.playing_ticks Audio.fresh_audio
  = [2000000%N; 3000000%N; 4000000%N].
Proof. reflexivity. Qed.

Example seek_past_end_throws :
  Audio.Seek 101000000 Audio.audio_in_progress
  = (Audio.audio_in_progress, Throws (Error SEEK "seek out of range")).
Proof. reflexivity. Qed.

Example seek_resets :
  Audio.calls (Audio.sink (fst (Audio.Seek 5000000 Audio.audio_in_progress)))
  = [Audio.CallTransfer 0 3; Audio.CallSetPosition 5]
  /\ Audio.frame (fst (Audio.Seek 5000000 Audio.audio_in_progress)) = [].
Proof. split; reflexivity. Qed.

Lemma Update_performs_cycle_witness :
  Audio.Update false Audio.audio_in_progress
  = Audio.spec_Update Audio.audio_in_progress.
Proof.
  apply (Update_performs_cycle false Audio.audio_in_progress).
  - intros k f it H; cbn; lia.
  - intros k f it H; cbn; lia.
  - apply Audio.Reachable_call; [apply Audio.Reachable_new | reflexivity].
Defined.

Lemma Update_exit_invariant_witness :
  Audio.FrameInvariant (fst (Audio.Update false Audio.audio_in_progress)).
Proof.
  refine (proj1 (Update_exit_invariant false Audio.audio_in_progress _ _)
                _ Audio.STOPPED _).
  - left; reflexivity.
  - apply Audio.Reachable_call; [apply Audio.Reachable_new | reflexivity].
  - reflexivity.
Defined.

Lemma TransferFrame_precondition_holds_witness :
  snd (Audio.Update false Audio.audio_in_progress)
  <> Aborted Audio.Transfer_frame_nonempty.
Proof.
  apply (TransferFrame_precondition_holds false Audio.audio_in_progress).
  apply Audio.Reachable_call; [apply Audio.Reachable_new | reflexivity].
Defined.

Lemma broadcast_positions_monotone_witness :
  StronglySorted N.le
    (map Audio.whole_seconds
         (Audio.broadcast_positions false Audio.playing_ticks
                                    Audio.fresh_audio)).
Proof.
  apply (broadcast_positions_monotone false Audio.playing_ticks
                                      Audio.fresh_audio).
  reflexivity.
Defined.

(** ** The wire format *)

Section WireFacts.

Import Wire.
Local Open Scope string_scope.

Lemma append_assoc (a b c : string) : (a ++ b) ++ c = a ++ (b ++ c).
Proof. induction a as [| x a IH]; cbn; [| rewrite IH]; reflexivity. Qed.

Lemma append_empty_r (a : string) : a ++ "" = a.
Proof. induction a as [| x a IH]; cbn; [| rewrite IH]; reflexivity. Qed.

Lemma append_str (a : string) (c : ascii) (b : string) :
  (a ++ str c) ++ b = a ++ String c b.
Proof. rewrite append_assoc. reflexivity. Qed.

(** *** Feeding the tokeniser piece by piece *)

Lemma Feed_app (t : Tokeniser) (a b : string) :
  Feed t (a ++ b) =
  let (t1, l1) := Feed t a in
  let (t2, l2) := Feed t1 b in
  (t2, (l1 ++ l2)%list).
Proof.
  revert t. induction a as [| c a IH]; intros t; cbn.
  - destruct (Feed t b); reflexivity.
  - destruct (feed_byte t c) as [t' line]. rewrite IH.
    destruct (Feed t' a) as [t1 l1]. destruct (Feed t1 b) as [t2 l2].
    destruct line; reflexivity.
Qed.

(** Between double quotes the escaped bytes of [a] add [a] to the word. *)
Lemma Feed_escape_bytes (ws : list string) (cur a : string) :
  Feed (mkTokeniser IN_DOUBLE ws cur) (escape_bytes a)
  = (mkTokeniser IN_DOUBLE ws (cur ++ a), []).
Proof.
  revert cur. induction a as [| c a IH]; intros cur; cbn [escape_bytes].
  - rewrite append_empty_r. reflexivity.
  - rewrite Feed_app.
    assert (Hbyte : Feed (mkTokeniser IN_DOUBLE ws cur) (escape_byte c)
                    = (mkTokeniser IN_DOUBLE ws (cur ++ str c), [])).
    { unfold escape_byte.
      destruct (Ascii.eqb c DQUOTE) eqn:Hq.
      - apply Ascii.eqb_eq in Hq; subst c. reflexivity.
      - destruct (Ascii.eqb c BACKSLASH) eqn:Hb.
        + apply Ascii.eqb_eq in Hb; subst c. reflexivity.
        + cbn. unfold feed_byte; cbn. rewrite Hb, Hq. reflexivity. }
    rewrite Hbyte, IH, append_str. reflexivity.
Qed.

(** A byte that forces no quoting is an ordinary byte of a word. *)
Lemma feed_byte_plain (st : TokeniserState) (ws : list string)
      (cur : string) (c : ascii) :
  st = NORMAL \/ st = IN_WORD ->
  forces_quoting c = false ->
  feed_byte (mkTokeniser st ws cur) c
  = (mkTokeniser IN_WORD ws (cur ++ str c), None).
Proof.
  unfold forces_quoting. intros Hst Hc.
  repeat (apply orb_false_iff in Hc; destruct Hc as [Hc ?]).
  unfold feed_byte, push; cbn.
  destruct Hst; subst st;
    repeat match goal with H : Ascii.eqb _ _ = false |- _ =>
                             rewrite H; clear H end;
    reflexivity.
Qed.

Lemma Feed_plain_in_word (ws : list string) (cur a : string) :
  any forces_quoting a = false ->
  Feed (mkTokeniser IN_WORD ws cur) a
  = (mkTokeniser IN_WORD ws (cur ++ a), []).
Proof.
  revert cur. induction a as [| c a IH]; intros cur Hplain; cbn [Feed].
  - rewrite append_empty_r. reflexivity.
  - cbn in Hplain. apply orb_false_iff in Hplain. destruct Hplain as [Hc Ha].
    rewrite feed_byte_plain by auto. rewrite IH by assumption.
    rewrite append_str. reflexivity.
Qed.

(** A word that needs no quoting, read at the start of a word. *)
Lemma Feed_plain_word (ws : list string) (w : string) :
  plain_word w ->
  Feed (mkTokeniser NORMAL ws "") w = (mkTokeniser IN_WORD ws w, []).
Proof.
  unfold plain_word, must_quote. intros Hw.
  apply orb_false_iff in Hw. destruct Hw as [Hne Hplain].
  destruct w as [| c w]; [discriminate |].
  cbn in Hplain. apply orb_false_iff in Hplain. destruct Hplain as [Hc Hw].
  cbn [Feed]. rewrite feed_byte_plain by auto.
  rewrite Feed_plain_in_word by assumption. reflexivity.
Qed.

(** An escaped argument, read at the start of a word, is the argument. *)
Lemma Feed_EscapeArg (ws : list string) (arg : string) :
  Feed (mkTokeniser NORMAL ws "") (EscapeArg arg)
  = (mkTokeniser IN_WORD ws arg, []).
Proof.
  unfold EscapeArg. destruct (must_quote arg) eqn:Hq.
  - cbn [str append Feed]. unfold feed_byte at 1. cbn.
    rewrite Feed_app, Feed_escape_bytes. reflexivity.
  - apply Feed_plain_word. exact Hq.
Qed.

(** A space after a word closes it. *)
Lemma Feed_space (ws : list string) (cur rest : string) :
  Feed (mkTokeniser IN_WORD ws cur) (" " ++ rest)
  = Feed (mkTokeniser NORMAL (ws ++ [cur]) "") rest.
Proof.
  change (" " ++ rest) with (String " " rest). cbn [Feed].
  change (feed_byte (mkTokeniser IN_WORD ws cur) " ")
    with (mkTokeniser NORMAL (ws ++ [cur]) "", @None (list string)).
  cbv beta iota.
  destruct (Feed (mkTokeniser NORMAL (ws ++ [cur]) "") rest); reflexivity.
Qed.

(** The packed form is the tag, the code's name and the escaped arguments,
    each argument after a space. *)
Lemma Pack_build (tag : string) (code : Code) (args : list string) :
  Pack (build tag code args) = tag ++ " " ++ STRINGS code ++ packed_args args.
Proof.
  unfold build, Pack.
  assert (Hfold : forall r, string_ (fold_left AddArg args r)
                            = string_ r ++ packed_args args).
  { induction args as [| a rest IH]; intros r; cbn [fold_left packed_args].
    - rewrite append_empty_r. reflexivity.
    - rewrite IH. cbn [AddArg string_]. rewrite !append_assoc. reflexivity. }
  rewrite Hfold. cbn [Response_new string_]. rewrite !append_assoc.
  reflexivity.
Qed.

Lemma Feed_packed_args (ws : list string) (cur : string)
      (args : list string) :
  exists t : Tokeniser,
    Feed (mkTokeniser IN_WORD ws cur) (packed_args args) = (t, [])
    /\ tstate t = IN_WORD
    /\ words_so_far t = (ws ++ cur :: args)%list.
Proof.
  revert ws cur. induction args as [| a rest IH]; intros ws cur.
  - exists (mkTokeniser IN_WORD ws cur). repeat split.
  - destruct (IH (ws ++ [cur])%list a) as (t & Hfeed & Hst & Hws).
    exists t. cbn [packed_args].
    rewrite Feed_space, Feed_app, Feed_EscapeArg, Hfeed.
    split; [reflexivity |]. split; [exact Hst |].
    rewrite Hws, <- app_assoc. reflexivity.
Qed.

Lemma STRINGS_plain (code : Code) : plain_word (STRINGS code).
Proof. destruct code; reflexivity. Qed.





(** *** No newline at the end of a packed response *)

Lemma ends_with_newline_app (a b : string) :
  b <> "" -> ends_with_newline (a ++ b) = ends_with_newline b.
Proof.
  intros Hb. induction a as [| c a IH]; [reflexivity |].
  cbn [append ends_with_newline]. rewrite <- IH.
  destruct (a ++ b) eqn:Hab; [| reflexivity].
  destruct a as [| c' a']; [contradiction | inversion Hab].
Qed.

Lemma plain_no_newline (a : string) :
  any forces_quoting a = false -> ends_with_newline a = false.
Proof.
  induction a as [| c a IH]; [reflexivity |]. cbn [any ends_with_newline].
  intros Hplain. apply orb_false_iff in Hplain. destruct Hplain as [Hc Ha].
  destruct a; [| auto].
  unfold forces_quoting in Hc.
  repeat (apply orb_false_iff in Hc; destruct Hc as [Hc ?]). assumption.
Qed.

Lemma EscapeArg_end (arg : string) :
  ends_with_newline (EscapeArg arg) = false /\ EscapeArg arg <> "".
Proof.
  unfold EscapeArg, must_quote.
  destruct (String.eqb arg "") eqn:Hempty; cbn [orb].
  - split; [| discriminate].
    rewrite <- append_assoc, ends_with_newline_app by discriminate.
    reflexivity.
  - destruct (any forces_quoting arg) eqn:Hany.
    + split; [| discriminate].
      rewrite <- append_assoc, ends_with_newline_app by discriminate.
      reflexivity.
    + split; [apply plain_no_newline; assumption |].
      intros ->. discriminate.
Qed.

Lemma packed_args_end (args : list string) :
  args <> [] ->
  ends_with_newline (packed_args args) = false /\ packed_args args <> "".
Proof.
  induction args as [| a rest IH]; [contradiction |]. intros _.
  split; [| discriminate]. cbn [packed_args].
  destruct (EscapeArg_end a) as [Hend Hne].
  destruct rest as [| b rest].
  - cbn [packed_args]. rewrite append_empty_r.
    rewrite ends_with_newline_app by assumption. exact Hend.
  - destruct IH as [IHend IHne]; [discriminate |].
    rewrite <- append_assoc, ends_with_newline_app by assumption.
    exact IHend.
Qed.

(** C8.  The packed form of a response never ends with a newline, whatever
    its tag, code and arguments; the newline that frames it on the wire is
    the one byte the connection's writer appends after the packed form, and
    in the older responder the byte [Respond] appends after the code and the
    message when it hands the line over for sending. *)
Theorem Pack_has_no_trailing_newline
        (tag : string) (code : Code) (args : list string) :
  ends_with_newline (Pack (build tag code args)) = false
  /\ (forall queue : string,
         Connection_Respond queue (build tag code args)
         = (queue ++ Pack (build tag code args)) ++ str LF)
  /\ (forall (c : Responder.ResponseCode) (message : string),
         Responder.Respond c message
         = (Responder.RESPONSES c ++ " " ++ message) ++ str LF).
Proof.
  split; [| split].
  - rewrite Pack_build.
    destruct args as [| a rest].
    + cbn [packed_args]. rewrite append_empty_r.
      rewrite <- append_assoc, ends_with_newline_app;
        destruct code; (reflexivity || discriminate).
    + destruct (packed_args_end (a :: rest)) as [Hend Hne]; [discriminate |].
      rewrite <- !append_assoc, ends_with_newline_app by assumption.
      exact Hend.
  - intros queue. unfold Connection_Respond. rewrite append_assoc.
    reflexivity.
  - intros c message. unfold Responder.Respond. rewrite !append_assoc.
    reflexivity.
Qed.

End WireFacts.

(** ** The ring buffer *)

Section RingFacts.

Import Method RingBuffer.

Context {T : Type}.

Lemma store_length (cells : list T) (i : nat) (x : T) :
  List.length (store cells i x) = List.length cells.
Proof.
  revert i. induction cells as [| c cells IH]; intros i; [reflexivity |].
  destruct i; cbn; [| rewrite IH]; reflexivity.
Qed.

Lemma copy_in_length (n : nat) (data : list T) (w size : Z)
      (cells : list T) :
  List.length (copy_in n data w size cells) = List.length cells.
Proof.
  revert data w cells. induction n as [| n IH]; intros data w cells;
    [reflexivity |].
  destruct data as [| x data]; [reflexivity |].
  cbn [copy_in]. rewrite IH. apply store_length.
Qed.

(** The capacities of the specification: together they leave one cell. *)
Lemma Ring_capacities (r : Ring T) :
  Ring_ok r ->
  0 <= Ring_ReadAvailable r
  /\ 0 <= Ring_WriteAvailable r
  /\ Ring_ReadAvailable r + Ring_WriteAvailable r + 1 = bufferSize r.
Proof.
  unfold Ring_ok, Ring_ReadAvailable, Ring_WriteAvailable.
  intros (Hsize & Hr & Hw & _).
  destruct (Z_le_gt_dec (readIndex r) (writeIndex r)) as [Hle | Hgt].
  - rewrite (Z.mod_small (writeIndex r - readIndex r)) by lia.
    replace (readIndex r - writeIndex r - 1)
      with (readIndex r - writeIndex r - 1 + bufferSize r
            + (-1) * bufferSize r) by lia.
    rewrite Z.mod_add by lia. rewrite Z.mod_small by lia. lia.
  - rewrite (Z.mod_small (readIndex r - writeIndex r - 1)) by lia.
    replace (writeIndex r - readIndex r)
      with (writeIndex r - readIndex r + bufferSize r
            + (-1) * bufferSize r) by lia.
    rewrite Z.mod_add by lia. rewrite Z.mod_small by lia. lia.
Qed.

Lemma Ring_Write_count (r : Ring T) (data : list T) (count : Z) :
  Ring_ok r ->
  0 <= snd (Ring_Write r data count) <= Ring_WriteAvailable r
  /\ snd (Ring_Write r data count) <= Z.max 0 count
  /\ Ring_ok (fst (Ring_Write r data count)).
Proof.
  intros Hok. destruct (Ring_capacities r Hok) as (_ & Hw & _).
  unfold Ring_Write. cbn [fst snd].
  split; [lia |]. split; [lia |].
  destruct Hok as (Hsize & Hr & Hwi & Hlen).
  unfold Ring_ok. cbn. rewrite copy_in_length.
  repeat split; try lia; apply Z.mod_pos_bound; lia.
Qed.

Lemma Ring_Read_count (r : Ring T) (count : Z) :
  Ring_ok r ->
  0 <= snd (Ring_Read r count) <= Ring_ReadAvailable r
  /\ snd (Ring_Read r count) <= Z.max 0 count
  /\ Ring_ok (fst (fst (Ring_Read r count))).
Proof.
  intros Hok. destruct (Ring_capacities r Hok) as (Hr & _ & _).
  unfold Ring_Read. cbn [fst snd].
  split; [lia |]. split; [lia |].
  destruct Hok as (Hsize & Hri & Hwi & Hlen).
  unfold Ring_ok. cbn.
  repeat split; try lia; apply Z.mod_pos_bound; lia.
Qed.

Lemma Ring_Initialize_ok (size count : Z) (mem : list T) :
  0 <= count ->
  Z.of_nat (List.length mem) = count ->
  fst (Ring_Initialize size count mem) = 0 ->
  Ring_ok (snd (Ring_Initialize size count mem)).
Proof.
  unfold Ring_Initialize. intros Hcount Hlen.
  destruct (count =? 0) eqn:Hz; cbn; [discriminate |].
  apply Z.eqb_neq in Hz. intros _. unfold Ring_ok. cbn. lia.
Qed.


(** Inside the range of [int] nothing wraps. *)
Lemma int_wrap_in_range (z : Z) :
  -2147483648 <= z <= 2147483647 -> int_wrap z = z.
Proof.
  intros Hz. unfold int_wrap.
  rewrite Z.mod_small by lia. lia.
Qed.

Lemma int_wrap_range (z : Z) : -2147483648 <= int_wrap z <= 2147483647.
Proof.
  unfold int_wrap.
  pose proof (Z.mod_pos_bound (z + 2147483648) 4294967296 eq_refl). lia.
Qed.

(** When [1 << P] elements of [size] bytes fit in an [int], the constructor
    computes their number and their bytes exactly, and the array holds the
    elements. *)
Lemma PaRingBuffer_sizes_exact (P size : Z) :
  0 <= P -> 0 < size -> 2 ^ P * size <= 2147483647 ->
  element_count P = 2 ^ P
  /\ buffer_length P size = 2 ^ P * size
  /\ buffer_length P size / size = 2 ^ P.
Proof.
  intros HP Hsize Hfit.
  assert (Hpow : 0 < 2 ^ P) by (apply Z.pow_pos_nonneg; lia).
  assert (Hcount : element_count P = 2 ^ P).
  { unfold element_count. rewrite Z.shiftl_mul_pow2, Z.mul_1_l by assumption.
    apply int_wrap_in_range. nia. }
  assert (Hbytes : buffer_length P size = 2 ^ P * size).
  { unfold buffer_length. rewrite Hcount. apply int_wrap_in_range. nia. }
  split; [exact Hcount |]. split; [exact Hbytes |].
  rewrite Hbytes. apply Z.div_mul. lia.
Qed.

(** How the constructor ends, for any ring library: with [std::bad_alloc]
    when one of the two allocations cannot be had, with the internal error
    when both can and the library's initialisation reports a failure, and
    with the buffer otherwise. *)
Lemma PaRingBuffer_new_outcome {RB : Type} {pa : PaUtil T RB}
      (P sizeof_rb : Z) (junk : T) (size : Z) (h : Heap) :
  let count := element_count P in
  let bytes := buffer_length P size in
  let rb_allocated := (0 <=? sizeof_rb) && (sizeof_rb <=? free_bytes h) in
  let buffer_allocated :=
    (0 <=? bytes) && (bytes <=? free_bytes h - sizeof_rb) in
  let init :=
    PaUtil_InitializeRingBuffer size count
                                (repeat junk (Z.to_nat (bytes / size))) in
  snd (PaRingBuffer_new P sizeof_rb junk size h) =
  if negb rb_allocated || negb buffer_allocated then Throws std_bad_alloc
  else if negb (fst init =? 0)
       then Throws (Error INTERNAL "ringbuf failed to init")
       else Returns (mkPaRingBuffer (snd init) sizeof_rb bytes).
Proof.
  cbv zeta. unfold PaRingBuffer_new, bind, operator_new, throw, ret.
  destruct ((0 <=? sizeof_rb) && (sizeof_rb <=? free_bytes h));
    [| reflexivity].
  cbn [free_bytes negb orb].
  destruct ((0 <=? buffer_length P size)
            && (buffer_length P size <=? free_bytes h - sizeof_rb));
    [| reflexivity].
  cbn [negb].
  destruct (PaUtil_InitializeRingBuffer size (element_count P) _)
    as [status r].
  cbn [fst snd]. destruct (negb (status =? 0)); reflexivity.
Qed.


End RingFacts.


Example failing_initialisation_is_internal :
  RingBuffer.PaRingBuffer_new (RB := unit) 2 48 Byte.x00 1
                              (RingBuffer.mkHeap 100)
  = (RingBuffer.mkHeap 48, Throws (Error INTERNAL "ringbuf failed to init")).
Proof. reflexivity. Qed.

(** When the [int] product wraps, the constructor returns all the same: at
    [P = 30] with elements of four bytes it allocates an array of no bytes
    for a ring of [2^30] cells, which is not in working order. *)
Example wrapped_product_allocates_nothing :
  let made := RingBuffer.PaRingBuffer_new (RB := RingBuffer.Ring Byte.byte)
                30 48 Byte.x00 4 (RingBuffer.mkHeap 100) in
  made
  = (RingBuffer.mkHeap 52,
     Returns (RingBuffer.mkPaRingBuffer
                (RingBuffer.mkRing 1073741824 0 0 []) 48 0))
  /\ ~ RingBuffer.Ring_ok (RingBuffer.mkRing (T := Byte.byte)
                                             1073741824 0 0 []).
Proof.
  split; [reflexivity |].
  unfold RingBuffer.Ring_ok. cbn. lia.
Qed.

Example full_ring_takes_nothing :
  RingBuffer.WriteCapacity RingBuffer.test_ring = 3
  /\ RingBuffer.WriteCapacity RingBuffer.test_ring_full = 0
  /\ snd (RingBuffer.Write [Byte.x09] 1 RingBuffer.test_ring_full)
     = Returns 0
  /\ snd (RingBuffer.Read 5 RingBuffer.test_ring_full)
     = Returns ([Byte.x01; Byte.x02; Byte.x03], 3)
  /\ snd (RingBuffer.Read 5 RingBuffer.test_ring) = Returns ([], 0).
Proof. repeat split. Qed.


(** ** More on the audio pipe *)

Section AudioOperations.

Import Method Audio AudioCalls.

Context {Src Snk : Type} {source : AudioSource Src} {output : AudioSink Snk}.
Variable NDEBUG : bool.

Abbreviation Pipe := (PipeAudio Src Snk).

Ltac frame_rule :=
  repeat first
    [ apply keeps_bind; [| intros ?]
    | apply keeps_ret | apply keeps_throw | apply keeps_gets
    | apply keeps_assert | apply keeps_when | apply keeps_if
    | apply keeps_on_src; intros; reflexivity
    | apply keeps_on_sink; intros; reflexivity
    | apply keeps_modify; intros [? ? ? ? ? ?]; cbn;
      try destruct (Transfer _ _ _); reflexivity ].

(** A call that only asks returns and leaves the whole object as it was. *)
Lemma query_call (q : Op) (a : Pipe) :
  is_query q = true ->
  fst (PipeAudio_call NDEBUG q a) = a
  /\ returned (snd (PipeAudio_call NDEBUG q a)) = true
  /\ announced_position q a = None.
Proof.
  intros Hq.
  destruct q as [| p [|] | b | p |]; try discriminate.
  - unfold PipeAudio_call, Emit, Position, bind, gets, ret.
    destruct (String.eqb p "/control/state");
      [| destruct (String.eqb p "/player/file");
         [| destruct (String.eqb p "/player/time/elapsed")]];
      repeat split.
  - repeat split.
Qed.

(** X1.  A unicast [Emit] or a [Position] call, put anywhere into a sequence
    of calls, returns (it neither throws nor aborts), leaves the object
    exactly as it was and changes nothing of what the sequence broadcasts:
    asking for the time never uses up the second's broadcast. *)
Theorem queries_do_not_disturb_broadcasts
        (before after : list Op) (q : Op) (a : Pipe) :
  is_query q = true ->
  fst (PipeAudio_call NDEBUG q a) = a
  /\ returned (snd (PipeAudio_call NDEBUG q a)) = true
  /\ (forall a0 : Pipe,
         broadcast_positions NDEBUG (before ++ q :: after) a0
         = broadcast_positions NDEBUG (before ++ after) a0).
Proof.
  intros Hq.
  destruct (query_call q a Hq) as (Hobj & Hret & _).
  split; [exact Hobj |]. split; [exact Hret |]. clear a Hobj Hret.
  induction before as [| op rest IH]; intros a.
  - destruct (query_call q a Hq) as (Hobj & Hret & Hnone).
    cbn [app broadcast_positions]. rewrite Hnone.
    destruct (PipeAudio_call NDEBUG q a) as [a' r]. cbn in Hobj, Hret.
    subst a'. destruct r as [x | e | l]; try discriminate. reflexivity.
  - cbn [app broadcast_positions].
    destruct (PipeAudio_call NDEBUG op a) as [a' r].
    destruct (aborted r); [reflexivity |]. rewrite IH. reflexivity.
Qed.

(** X2.  The first broadcast [Emit] of the elapsed time after a [Seek] that
    returned is always answered, with the position in decimal, whatever the
    throttle had recorded before the seek; it records the position's whole
    second. *)
Theorem Seek_then_broadcast_announces (position : N) (a a' : Pipe) :
  Seek position a = (a', Returns tt) ->
  let micros := MicrosFromSamples (src a') (SinkPosition (sink a')) in
  Emit "/player/time/elapsed" true a'
  = (set_last_time (whole_seconds micros) (set_announced_time true a'),
     Returns (Some (Res "Entry" "/player/time/elapsed" (to_string micros)))).
Proof.
  intros Hseek. rewrite Seek_eq in Hseek.
  destruct (SourceSeek (src a) (SamplesFromMicros (src a) position))
    as [s' [actual | e | []]]; try discriminate.
  injection Hseek as Ha'. subst a'.
  rewrite Emit_elapsed_broadcast. reflexivity.
Qed.

(** X3.  Through any sequence of calls without a seek, the whole seconds of
    the positions broadcast strictly increase: no two broadcasts fall into
    the same second, whatever positions the sink reports and however often
    the time is asked for. *)
Theorem broadcasts_at_most_once_a_second (ops : list Op) (a : Pipe) :
  forallb (fun op => negb (is_seek op)) ops = true ->
  StronglySorted N.lt
    (map whole_seconds (broadcast_positions NDEBUG ops a))
  /\ (announced_time a = true ->
      Forall (fun m => (last_time a < whole_seconds m)%N)
             (broadcast_positions NDEBUG ops a)).
Proof. apply broadcast_positions_increase. Qed.

(** *** What one update does *)

(** X4.  [Update] on an object whose frame holds bytes does not decode and
    does not signal the end of the source: it hands the frame to the sink's
    [Transfer] once, from where the iterator stands, and the object is then
    the old one with the sink as [Transfer] left it and the iterator where
    [Transfer] put it, or with the frame cleared when the iterator reached
    the end.  The source and the throttle are untouched, however the call
    ends. *)
Theorem Update_frame_in_progress (a : Pipe) :
  Reachable NDEBUG a ->
  frame a <> [] ->
  let k' := fst (Transfer (sink a) (frame a) (frame_iterator a)) in
  let it' := snd (Transfer (sink a) (frame a) (frame_iterator a)) in
  fst (Update NDEBUG a)
  = if frame_end a <=? it'
    then mkPipeAudio (src a) k' [] 0 (announced_time a) (last_time a)
    else mkPipeAudio (src a) k' (frame a) it'
                     (announced_time a) (last_time a).
Proof.
  intros Hreach Hne. cbv zeta.
  pose proof (Reachable_consistent NDEBUG a Hreach) as Hok.
  assert (Hin : (frame_end a <=? frame_iterator a) = false).
  { apply Z.leb_gt. destruct Hok as [[Hf _] | [_ Hin]]; [congruence | lia]. }
  rewrite Update_split. unfold bind at 1.
  rewrite Update_until_transfer_eq by assumption. rewrite Hin.
  unfold Update_from_transfer, bind, when.
  rewrite TransferFrame_any_sink by (apply frame_end_nonempty; assumption).
  cbv zeta. unfold spec_transfer, spec_replace_frame, frame_end.
  destruct a as [s k f it ann lt]. cbn [src sink frame frame_iterator].
  destruct (Transfer k f it) as [k' it']. cbn.
  destruct (Z.of_nat (List.length f) <=? it'); [reflexivity |].
  destruct (NDEBUG || (0 <=? it')); reflexivity.
Qed.

(** [Update] on an empty frame with its iterator at the start. *)
Lemma Update_empty_frame (a : Pipe) :
  frame a = [] -> frame_iterator a = 0 ->
  Update NDEBUG a =
  match Decode (src a) with
  | (s', Returns (st, f)) =>
      let k := if DecodeState_eqb st END_OF_FILE
               then SourceOut (sink a) else sink a in
      match f with
      | [] => (mkPipeAudio s' k [] 0 (announced_time a) (last_time a),
               Returns (SinkState k))
      | _ :: _ =>
          Update_from_transfer NDEBUG true
            (mkPipeAudio s' k f 0 (announced_time a) (last_time a))
      end
  | (s', Throws e) => (set_src s' a, Throws e)
  | (s', Aborted l) => match l with end
  end.
Proof.
  intros Hf Hit.
  assert (Hok : FrameConsistent a) by (left; auto).
  rewrite Update_split. unfold bind at 1.
  rewrite Update_until_transfer_eq by assumption.
  unfold frame_end. rewrite Hf, Hit. cbn [List.length Z.of_nat Z.leb Z.compare].
  destruct (Decode (src a)) as [s' [[st f] | e | []]]; try reflexivity.
  destruct a as [s k f0 it ann lt]; cbn in Hf, Hit; subst f0 it.
  destruct st, f as [| b f']; reflexivity.
Qed.

(** X5.  [Update] on an object whose frame is empty always asks the source
    to decode.  When the source has nothing to give, the sink's [Transfer]
    is not called, the frame stays empty (so the next update decodes again)
    and the call answers the sink's state; the sink is told that the source
    is out exactly when the source reported the end of the file. *)
Theorem Update_nothing_decoded (a : Pipe) (s' : Src) (st : DecodeState) :
  Reachable NDEBUG a ->
  frame a = [] ->
  Decode (src a) = (s', Returns (st, [])) ->
  let k := match st with
           | END_OF_FILE => SourceOut (sink a)
           | DECODING => sink a
           end in
  Update NDEBUG a
  = (mkPipeAudio s' k [] 0 (announced_time a) (last_time a),
     Returns (SinkState k)).
Proof.
  intros Hreach Hf Hdec. cbv zeta.
  pose proof (Reachable_consistent NDEBUG a Hreach) as Hok.
  assert (Hit : frame_iterator a = 0).
  { destruct Hok as [[_ Hit] | [Hne _]]; [exact Hit | congruence]. }
  rewrite Update_empty_frame by assumption. rewrite Hdec.
  destruct st; reflexivity.
Qed.

(** X6.  After a [Seek] that returned, whatever frame the object held
    before, the next [Update] decodes afresh and the only bytes it hands to
    the sink's [Transfer] are the newly decoded ones, from their first byte:
    nothing decoded before the seek is played after it. *)
Theorem Update_after_Seek_sends_fresh_bytes
        (position : N) (a a' : Pipe) :
  Seek position a = (a', Returns tt) ->
  match Decode (src a') with
  | (s', Returns (st, f)) =>
      let k := match st with
               | END_OF_FILE => SourceOut (sink a')
               | DECODING => sink a'
               end in
      src (fst (Update NDEBUG a')) = s'
      /\ sink (fst (Update NDEBUG a'))
         = match f with
           | [] => k
           | _ :: _ => fst (Transfer k f 0)
           end
  | (s', Throws e) => Update NDEBUG a' = (set_src s' a', Throws e)
  | (s', Aborted l) => match l return Prop with end
  end.
Proof.
  intros Hseek. rewrite Seek_eq in Hseek.
  destruct (SourceSeek (src a) (SamplesFromMicros (src a) position))
    as [s1 [actual | e | []]]; try discriminate.
  injection Hseek as Ha'. subst a'.
  rewrite Update_empty_frame by reflexivity. cbn [src sink].
  destruct (Decode s1) as [s' [[st f] | e | []]]; [| reflexivity].
  cbv zeta.
  replace (if DecodeState_eqb st END_OF_FILE
           then SourceOut (SetPosition (sink a) actual)
           else SetPosition (sink a) actual)
    with (match st with
          | END_OF_FILE => SourceOut (SetPosition (sink a) actual)
          | DECODING => SetPosition (sink a) actual
          end) by (destruct st; reflexivity).
  destruct f as [| b f']; [split; reflexivity |].
  unfold Update_from_transfer, bind, when.
  rewrite TransferFrame_any_sink by (unfold frame_end; cbn; lia).
  cbv zeta. unfold spec_transfer, spec_replace_frame.
  cbn [sink frame frame_iterator].
  destruct (Transfer _ (b :: f') 0) as [k' it']. cbn.
  destruct (_ <=? it'); [split; reflexivity |].
  destruct (NDEBUG || (0 <=? it')); split; reflexivity.
Qed.

(** *** The assertions *)

(** X7.  On every object a program can hold, with any sink, the assertion
    at the head of [DecodeIfFrameEmpty] (the frame is empty or unfinished)
    holds, so [DecodeIfFrameEmpty] never aborts; and [Update] never fails
    that assertion nor the one that follows [ClearFrame] in
    [TransferFrame]. *)
Theorem Decode_assertion_holds (a : Pipe) :
  Reachable NDEBUG a ->
  frame_empty a || negb (frame_end a <=? frame_iterator a) = true
  /\ aborted (snd (DecodeIfFrameEmpty NDEBUG a)) = false
  /\ snd (Update NDEBUG a) <> Aborted Decode_frame_empty_or_unfinished
  /\ snd (Update NDEBUG a) <> Aborted Transfer_cleared_frame_finished.
Proof.
  intros Hreach.
  pose proof (Reachable_consistent NDEBUG a Hreach) as Hok.
  split; [| split; [| split]].
  - rewrite frame_empty_end. unfold frame_end.
    destruct Hok as [[Hf Hit] | [Hf Hin]].
    + rewrite Hf. reflexivity.
    + unfold frame_end in Hin. apply orb_true_iff. right.
      apply negb_true_iff, Z.leb_gt. exact Hin.
  - rewrite DecodeIfFrameEmpty_eq by assumption.
    destruct (frame_end a <=? frame_iterator a); [| reflexivity].
    destruct (Decode (src a)) as [s' [r | e | []]]; reflexivity.
  - intros Habs. apply Update_aborted in Habs; [| assumption].
    destruct Habs as [Habs _]. discriminate.
  - intros Habs. apply Update_aborted in Habs; [| assumption].
    destruct Habs as [Habs _]. discriminate.
Qed.

(** X8.  [Update] aborts in exactly one case: the build keeps the
    assertions, a transfer was made, and the sink's [Transfer] left the
    iterator before the beginning of the frame.  The assertion that fails is
    then the last one of [TransferFrame]. *)
Theorem Update_aborts_exactly (a : Pipe) (l : Assertion) :
  Reachable NDEBUG a ->
  snd (Update NDEBUG a) = Aborted l
  <-> l = Transfer_iterator_in_frame
      /\ NDEBUG = false
      /\ exists a1,
           Update_until_transfer NDEBUG a = (a1, Returns true)
           /\ snd (Transfer (sink a1) (frame a1) (frame_iterator a1)) < 0.
Proof.
  intros Hreach.
  pose proof (Reachable_consistent NDEBUG a Hreach) as Hok.
  rewrite Update_split. unfold bind.
  destruct (Update_until_transfer NDEBUG a) as [a1 [t | e | l']] eqn:Hrun.
  - destruct (Update_until_transfer_frame NDEBUG a a1 t Hok Hrun)
      as (_ & Ht & _).
    unfold Update_from_transfer, bind, when.
    destruct t.
    + destruct (Ht eq_refl) as [Hne Hend].
      rewrite TransferFrame_any_sink by (apply frame_end_nonempty; assumption).
      cbv zeta.
      destruct (spec_transfer_frame a1) as [_ Hit]. rewrite Hit.
      set (it' := snd (Transfer (sink a1) (frame a1) (frame_iterator a1))).
      assert (Hpos : 0 < frame_end a1).
      { apply frame_end_nonempty in Hne. unfold frame_end in *. lia. }
      destruct (frame_end a1 <=? it') eqn:Hfin.
      * apply Z.leb_le in Hfin. split; [discriminate |].
        intros (_ & _ & a2 & Heq & Hlow). injection Heq as Heq. subst a2.
        fold it' in Hlow. lia.
      * destruct NDEBUG.
        -- split; [discriminate |]. intros (_ & Hdbg & _). discriminate.
        -- cbn [orb]. destruct (0 <=? it') eqn:Hlow.
           ++ apply Z.leb_le in Hlow. split; [discriminate |].
              intros (_ & _ & a2 & Heq & Hneg). injection Heq as Heq.
              subst a2. fold it' in Hneg. lia.
           ++ apply Z.leb_gt in Hlow. cbn. split.
              ** intros Heq. injection Heq as Heq. subst l.
                 split; [reflexivity |]. split; [reflexivity |].
                 exists a1. split; [reflexivity | exact Hlow].
              ** intros (Hl & _). subst l. reflexivity.
    + split; [discriminate |].
      intros (_ & _ & a2 & Heq & _). discriminate.
  - split; [discriminate |]. intros (_ & _ & a2 & Heq & _). discriminate.
  - exfalso. rewrite Update_until_transfer_eq in Hrun by assumption.
    destruct (frame_end a <=? frame_iterator a); [| discriminate].
    destruct (Decode (src a)) as [s' [r | e | []]]; discriminate.
Qed.

(** *** Members the operations leave alone *)

Lemma SetPlaying_keeps_src :
  keeps (Src := Src) (Snk := Snk) src (SetPlaying true)
  /\ keeps (Src := Src) (Snk := Snk) src (SetPlaying false).
Proof. split; unfold SetPlaying; frame_rule. Qed.

Lemma Emit_keeps_src_sink (p : string) (b : bool) :
  keeps (Src := Src) (Snk := Snk) (fun a => (src a, sink a)) (Emit p b).
Proof.
  unfold Emit, Position, CanAnnounceTime. frame_rule.
Qed.

(** X9.  Which members each operation can change, however the call ends:
    only [Update] and [Seek] touch the frame and its iterator; only [Seek]
    and a broadcast [Emit] of the elapsed time touch the throttle's record;
    [Emit], [SetPlaying] and [Position] never touch the source; [Emit] and
    [Position] never touch the sink. *)
Theorem operations_leave_alone (op : Op) (a : Pipe) :
  let a' := fst (PipeAudio_call NDEBUG op a) in
  match op with
  | OpUpdate => throttle a' = throttle a
  | OpSeek _ => last_time a' = last_time a
  | OpSetPlaying _ =>
      cursor a' = cursor a /\ throttle a' = throttle a /\ src a' = src a
  | OpEmit p b =>
      cursor a' = cursor a /\ src a' = src a /\ sink a' = sink a
      /\ (b = false \/ p <> "/player/time/elapsed"%string ->
          throttle a' = throttle a)
  | OpPosition => a' = a
  end.
Proof.
  cbv zeta. rewrite PipeAudio_call_fst.
  destruct op as [| p b | b | p |].
  - apply Update_keeps_throttle.
  - split; [apply Emit_keeps_cursor |].
    pose proof (Emit_keeps_src_sink p b a) as Hss. cbv beta in Hss.
    injection Hss as Hs Hk. split; [exact Hs |]. split; [exact Hk |].
    intros Hquiet.
    pose proof (call_throttle NDEBUG (OpEmit p b) a eq_refl) as Hthr.
    rewrite PipeAudio_call_fst in Hthr. cbn [announced_position] in Hthr.
    destruct Hquiet as [Hb | Hp].
    + subst b. exact Hthr.
    + destruct b; [| exact Hthr].
      apply String.eqb_neq in Hp. rewrite Hp in Hthr. exact Hthr.
  - split; [apply SetPlaying_keeps_cursor |].
    split; [apply SetPlaying_keeps_throttle |].
    destruct SetPlaying_keeps_src as [Ht Hf].
    destruct b; [apply Ht | apply Hf].
  - rewrite Seek_eq.
    destruct (SourceSeek (src a) (SamplesFromMicros (src a) p))
      as [s' [actual | e | []]]; reflexivity.
  - reflexivity.
Qed.

(** *** The member the constructor does not initialise *)

Lemma ignores_bind {A B} (m : M Assertion Pipe A)
      (k : A -> M Assertion Pipe B) :
  ignores_last_time m -> (forall x, ignores_last_time (k x)) ->
  ignores_last_time (bind m k).
Proof.
  intros Hm Hk t a. unfold bind. rewrite Hm.
  destruct (m a) as [a1 [x | e | l]]; cbn [fst snd]; [apply Hk | ..];
    reflexivity.
Qed.

Lemma ignores_ret {A} (x : A) :
  ignores_last_time (Src := Src) (Snk := Snk) (ret x).
Proof. intros t a; reflexivity. Qed.

Lemma ignores_gets {A} (g : Pipe -> A) :
  (forall t a, g (set_last_time t a) = g a) -> ignores_last_time (gets g).
Proof. intros Hg t a. unfold gets. rewrite Hg. reflexivity. Qed.

Lemma ignores_assert (l : Assertion) (c : bool) :
  ignores_last_time (Src := Src) (Snk := Snk) (assert NDEBUG l c).
Proof. intros t a. unfold assert. destruct (NDEBUG || c); reflexivity. Qed.

Lemma ignores_modify (g : Pipe -> Pipe) :
  (forall t a, g (set_last_time t a) = set_last_time t (g a)) ->
  ignores_last_time (modify g).
Proof. intros Hg t a. unfold modify. rewrite Hg. reflexivity. Qed.

Lemma ignores_when (c : bool) (m : M Assertion Pipe unit) :
  ignores_last_time m -> ignores_last_time (when c m).
Proof. intros Hm. destruct c; [exact Hm | apply ignores_ret]. Qed.

Lemma ignores_if {A} (c : bool) (m1 m2 : M Assertion Pipe A) :
  ignores_last_time m1 -> ignores_last_time m2 ->
  ignores_last_time (if c then m1 else m2).
Proof. destruct c; auto. Qed.

Lemma ignores_on_src {A} (g : Src -> Src * outcome Empty_set A) :
  ignores_last_time (Src := Src) (Snk := Snk) (on_src g).
Proof.
  intros t a. unfold on_src. cbn [src set_last_time].
  destruct (g (src a)) as [s' r]. reflexivity.
Qed.

Lemma ignores_on_sink {A} (g : Snk -> Snk * outcome Empty_set A) :
  ignores_last_time (Src := Src) (Snk := Snk) (on_sink g).
Proof.
  intros t a. unfold on_sink. cbn [sink set_last_time].
  destruct (g (sink a)) as [k' r]. reflexivity.
Qed.

Ltac ignores_tac :=
  repeat first
    [ apply ignores_bind; [| intros ?]
    | apply ignores_ret | apply ignores_assert
    | apply ignores_when | apply ignores_if
    | apply ignores_on_src | apply ignores_on_sink
    | apply ignores_gets; intros ? [? ? ? ? ? ?]; reflexivity
    | apply ignores_modify; intros ? [? ? ? ? ? ?]; cbn;
      try destruct (Transfer _ _ _); reflexivity ].

Lemma Update_ignores_last_time :
  ignores_last_time (Src := Src) (Snk := Snk) (Update NDEBUG).
Proof.
  unfold Update, DecodeIfFrameEmpty, TransferFrame, FrameFinished,
    ClearFrame. ignores_tac.
Qed.

Lemma SetPlaying_ignores_last_time (playing : bool) :
  ignores_last_time (Src := Src) (Snk := Snk) (SetPlaying playing).
Proof. unfold SetPlaying. ignores_tac. Qed.

Lemma Seek_ignores_last_time (position : N) :
  ignores_last_time (Src := Src) (Snk := Snk) (Seek position).
Proof. unfold Seek, ClearFrame. ignores_tac. Qed.

Lemma Position_ignores_last_time :
  ignores_last_time (Src := Src) (Snk := Snk) Position.
Proof. unfold Position. ignores_tac. Qed.

(** Every call but a broadcast of the elapsed time ignores [last_time]. *)
Lemma call_ignores_last_time (op : Op) :
  (forall p, op = OpEmit p true -> p <> "/player/time/elapsed"%string) ->
  ignores_last_time (Src := Src) (Snk := Snk) (PipeAudio_call NDEBUG op).
Proof.
  intros Hop. destruct op as [| p b | b | p |]; unfold PipeAudio_call.
  - pose proof Update_ignores_last_time. ignores_tac; try assumption.
  - apply ignores_bind; [| intros ?; apply ignores_ret].
    unfold Emit.
    destruct b.
    + specialize (Hop p eq_refl). apply String.eqb_neq in Hop. rewrite Hop.
      ignores_tac.
    + pose proof Position_ignores_last_time. cbn [negb].
      ignores_tac; try assumption.
  - pose proof (SetPlaying_ignores_last_time b). ignores_tac; try assumption.
  - pose proof (Seek_ignores_last_time p). ignores_tac; try assumption.
  - pose proof Position_ignores_last_time. ignores_tac; try assumption.
Qed.

(** Until the first broadcast of the elapsed time is answered, nothing
    looks at [last_time]. *)
Lemma answers_before_first_broadcast (ops : list Op) (t : N) (a : Pipe) :
  announced_time a = false ->
  answers NDEBUG ops (set_last_time t a) = answers NDEBUG ops a.
Proof.
  revert a. induction ops as [| op rest IH]; intros a Hann; [reflexivity |].
  cbn [answers].
  destruct (match op with
            | OpEmit p true => String.eqb p "/player/time/elapsed"
            | _ => false
            end) eqn:Hop.
  - destruct op as [| p [|] | b | p |]; try discriminate.
    apply String.eqb_eq in Hop. subst p.
    unfold PipeAudio_call, bind. rewrite !Emit_elapsed_broadcast. cbv zeta.
    destruct a as [s k f it ann lt]. cbn in Hann. subst ann. reflexivity.
  - assert (Hquiet : forall p, op = OpEmit p true ->
                               p <> "/player/time/elapsed"%string).
    { intros p Hp. subst op. apply String.eqb_neq. exact Hop. }
    rewrite (call_ignores_last_time op Hquiet t a).
    assert (Hseek_or_not : announced_time (fst (PipeAudio_call NDEBUG op a))
                           = false).
    { destruct (is_seek op) eqn:Hseek.
      - destruct op as [| p b | b | p |]; try discriminate.
        rewrite PipeAudio_call_fst, Seek_eq.
        destruct (SourceSeek (src a) (SamplesFromMicros (src a) p))
          as [s' [actual | e | []]]; [reflexivity | exact Hann].
      - pose proof (call_throttle NDEBUG op a Hseek) as Hthr.
        assert (Hnone : announced_position op a = None).
        { destruct op as [| p [|] | b | p |]; try reflexivity.
          cbn [announced_position]. rewrite Hop. reflexivity. }
        rewrite Hnone in Hthr. unfold throttle in Hthr.
        injection Hthr as H1 _. rewrite H1. exact Hann. }
    destruct (PipeAudio_call NDEBUG op a) as [a' r]. cbn [fst snd] in *.
    destruct (aborted r); [reflexivity |]. rewrite IH by assumption.
    reflexivity.
Qed.

(** X10.  The constructor leaves [last_time] uninitialised (and the frame
    iterator to [ClearFrame]); no sequence of calls on a fresh object ever
    shows what the memory held there: every call ends the same way and
    answers the same, whatever the two values were. *)
Theorem uninitialised_members_never_show
        (s : Src) (k : Snk) (it0 it0' : Z) (lt0 lt0' : N) (ops : list Op) :
  answers NDEBUG ops (PipeAudio_new s k it0 lt0)
  = answers NDEBUG ops (PipeAudio_new s k it0' lt0').
Proof.
  change (PipeAudio_new s k it0 lt0)
    with (set_last_time lt0 (PipeAudio_new s k it0' lt0')).
  apply answers_before_first_broadcast. reflexivity.
Qed.

(** *** The bytes that pass through the pipe *)

Lemma taken_then_rest (f : list Byte.byte) (it it' : Z) :
  0 <= it <= it' ->
  taken f it it'
  ++ (if Z.of_nat (List.length f) <=? it' then []
      else skipn (Z.to_nat it') f)
  = skipn (Z.to_nat it) f.
Proof.
  intros Hit. unfold taken.
  destruct (Z.of_nat (List.length f) <=? it') eqn:Hend.
  - apply Z.leb_le in Hend. rewrite app_nil_r. apply firstn_all2.
    rewrite length_skipn. lia.
  - replace (Z.to_nat it') with (Z.to_nat (it' - it) + Z.to_nat it)%nat
      by lia.
    rewrite <- skipn_skipn. apply firstn_skipn.
Qed.

(** The transfer phase of [Update] on a frame in progress: what the sink
    took and what is still pending make up what was pending. *)
Lemma transfer_conserves (a1 : Pipe) :
  Transfer_advances ->
  0 <= frame_iterator a1 < frame_end a1 ->
  taken (frame a1) (frame_iterator a1)
        (snd (Transfer (sink a1) (frame a1) (frame_iterator a1)))
  ++ pending (fst (Update_from_transfer NDEBUG true a1))
  = pending a1.
Proof.
  intros Hadv Hin.
  pose proof (Hadv (sink a1) (frame a1) (frame_iterator a1) Hin) as Hfwd.
  unfold Update_from_transfer, bind, when.
  rewrite TransferFrame_eq by assumption.
  destruct (spec_transfer_frame a1) as [Hf Hit]. rewrite Hit.
  cbn [fst snd gets].
  set (it' := snd (Transfer (sink a1) (frame a1) (frame_iterator a1))) in *.
  change (pending a1) with (skipn (Z.to_nat (frame_iterator a1)) (frame a1)).
  rewrite <- (taken_then_rest (frame a1) (frame_iterator a1) it') by lia.
  f_equal. unfold frame_end.
  destruct (Z.of_nat (List.length (frame a1)) <=? it'); [reflexivity |].
  unfold pending. rewrite Hf, Hit. reflexivity.
Qed.

(** One call that is not a seek. *)
Lemma call_conserves (op : Op) (a : Pipe) :
  Transfer_advances -> FrameCursorOk a -> is_seek op = false ->
  pending a ++ decoded_by op a
  = sent_by NDEBUG op a ++ pending (fst (PipeAudio_call NDEBUG op a)).
Proof.
  intros Hadv Hok Hseek. rewrite PipeAudio_call_fst.
  assert (Hsame : forall a' : Pipe, cursor a' = cursor a ->
                                    pending a ++ [] = [] ++ pending a').
  { intros a' Hc. unfold cursor in Hc. injection Hc as Hf Hit.
    unfold pending. rewrite Hf, Hit. apply app_nil_r. }
  destruct op as [| p b | b | p |]; try discriminate;
    [| apply Hsame; apply Emit_keeps_cursor
     | apply Hsame; apply SetPlaying_keeps_cursor
     | apply Hsame; reflexivity].
  pose proof (proj1 (FrameCursorOk_iff a) Hok) as [Hcons Hlow].
  cbn [decoded_by sent_by]. rewrite Update_split. unfold bind at 1.
  rewrite Update_until_transfer_eq by assumption.
  destruct (frame_end a <=? frame_iterator a) eqn:Hfin.
  - assert (Hempty : pending a = []).
    { apply Z.leb_le in Hfin. unfold pending.
      destruct Hok as [[Hf _] | Hin]; [rewrite Hf; apply skipn_nil | lia]. }
    rewrite Hempty. cbn [app].
    destruct (Decode (src a)) as [s' [[st f] | e | []]];
      [| cbn [fst snd app];
         change (pending (set_src s' a)) with (pending a);
         rewrite Hempty; reflexivity].
    cbn [snd fst]. cbv zeta.
    set (a2 := if DecodeState_eqb st END_OF_FILE then _ else _).
    assert (Hshape : frame a2 = f /\ frame_iterator a2 = 0).
    { subst a2. destruct st; split; reflexivity. }
    destruct Hshape as [Hf2 Hit2].
    destruct (frame_end a2 <=? frame_iterator a2) eqn:Hfin2; cbn [negb].
    + unfold frame_end in Hfin2. rewrite Hf2, Hit2 in Hfin2.
      apply Z.leb_le in Hfin2. destruct f; [| cbn in Hfin2; lia].
      cbn. unfold pending. rewrite Hf2. rewrite skipn_nil. reflexivity.
    + apply Z.leb_gt in Hfin2.
      rewrite transfer_conserves by (try assumption; lia).
      unfold pending. rewrite Hf2, Hit2. reflexivity.
  - apply Z.leb_gt in Hfin. rewrite app_nil_r. symmetry.
    apply transfer_conserves; [assumption | lia].
Qed.

(** Calls that are not seeks keep the iterator inside the frame, with a sink
    that never moves it backwards. *)
Lemma call_keeps_cursor_ok (op : Op) (a : Pipe) :
  Transfer_advances -> FrameCursorOk a -> is_seek op = false ->
  FrameCursorOk (fst (PipeAudio_call NDEBUG op a)).
Proof.
  intros Hadv Hok Hseek. rewrite PipeAudio_call_fst.
  destruct op as [| p b | b | p |]; try discriminate.
  - apply Update_cursor; [right; assumption | assumption |].
    apply Update_never_aborts; assumption.
  - apply (same_cursor a); [apply Emit_keeps_cursor | exact Hok].
  - apply (same_cursor a); [apply SetPlaying_keeps_cursor | exact Hok].
  - exact Hok.
Qed.

(** X11.  No byte is lost or sent twice on the way from the source to the
    sink: through any sequence of calls without a seek, with a sink whose
    [Transfer] never moves the iterator backwards, the bytes pending in the
    frame at the start followed by all the bytes decoded on the way are
    exactly the bytes the sink took, in order, followed by the bytes
    pending in the frame at the end. *)
Theorem bytes_are_conserved (ops : list Op) (a : Pipe) :
  Transfer_advances ->
  Reachable NDEBUG a ->
  forallb (fun op => negb (is_seek op)) ops = true ->
  pending a ++ decoded_during NDEBUG ops a
  = sent_during NDEBUG ops a ++ pending (after NDEBUG ops a).
Proof.
  intros Hadv Hreach.
  assert (Hok : FrameCursorOk a)
    by (apply (Reachable_cursor NDEBUG); [right |]; assumption).
  clear Hreach. revert a Hok.
  induction ops as [| op rest IH]; intros a Hok Hops.
  - cbn. apply app_nil_r.
  - cbn in Hops. apply andb_true_iff in Hops. destruct Hops as [Hop Hrest].
    apply negb_true_iff in Hop.
    cbn [decoded_during sent_during after fold_left].
    fold (after NDEBUG rest (fst (PipeAudio_call NDEBUG op a))).
    rewrite app_assoc, (call_conserves op a) by assumption.
    rewrite <- !app_assoc. f_equal.
    apply IH; [apply call_keeps_cursor_ok |]; assumption.
Qed.

End AudioOperations.

(** *** The same on the test source and sinks *)

Lemma queries_do_not_disturb_broadcasts_witness :
  Audio.broadcast_positions false
    ([Audio.OpSetPlaying true; Audio.OpUpdate]
       ++ Audio.OpEmit "/player/time/elapsed" false
       :: [Audio.OpEmit "/player/time/elapsed" true])
    Audio.fresh_audio
  = Audio.broadcast_positions false
      ([Audio.OpSetPlaying true; Audio.OpUpdate]
         ++ [Audio.OpEmit "/player/time/elapsed" true])
      Audio.fresh_audio.
Proof.
  apply (queries_do_not_disturb_broadcasts false
           [Audio.OpSetPlaying true; Audio.OpUpdate]
           [Audio.OpEmit "/player/time/elapsed" true]
           (Audio.OpEmit "/player/time/elapsed" false) Audio.fresh_audio).
  reflexivity.
Defined.

Lemma Seek_then_broadcast_announces_witness :
  snd (Audio.Emit "/player/time/elapsed" true
         (fst (Audio.Seek 5000000 Audio.audio_in_progress)))
  = Returns (Some (Audio.Res "Entry" "/player/time/elapsed" "5000000")).
Proof.
  rewrite (Seek_then_broadcast_announces 5000000 Audio.audio_in_progress
             (fst (Audio.Seek 5000000 Audio.audio_in_progress)));
    reflexivity.
Defined.

Lemma broadcasts_at_most_once_a_second_witness :
  StronglySorted N.lt
    (map Audio.whole_seconds
         (Audio.broadcast_positions false Audio.playing_ticks
                                    Audio.fresh_audio)).
Proof.
  apply (broadcasts_at_most_once_a_second false Audio.playing_ticks
                                          Audio.fresh_audio).
  reflexivity.
Defined.

Lemma Update_frame_in_progress_witness :
  Audio.frame (fst (Audio.Update false Audio.audio_in_progress)) = []
  /\ Audio.calls (Audio.sink (fst (Audio.Update false
                                     Audio.audio_in_progress)))
     = [Audio.CallTransfer 0 3; Audio.CallTransfer 2 3].
Proof.
  rewrite (Update_frame_in_progress false Audio.audio_in_progress).
  - split; reflexivity.
  - apply Audio.Reachable_call; [apply Audio.Reachable_new | reflexivity].
  - discriminate.
Defined.

Lemma Update_nothing_decoded_witness :
  Audio.calls (Audio.sink (fst (Audio.Update false
                                  AudioCalls.drained_audio)))
  = [Audio.CallSourceOut].
Proof.
  rewrite (Update_nothing_decoded false AudioCalls.drained_audio
             (Audio.mkTestSource [] 1 100) Audio.END_OF_FILE).
  - reflexivity.
  - apply Audio.Reachable_new.
  - reflexivity.
  - reflexivity.
Defined.

Lemma Update_after_Seek_sends_fresh_bytes_witness :
  let a' := fst (Audio.Seek 5000000 Audio.audio_in_progress) in
  Audio.src (fst (Audio.Update false a')) = Audio.mkTestSource [] 1 100
  /\ Audio.sink (fst (Audio.Update false a'))
     = fst (Audio.Transfer (Audio.sink a') [Byte.x04] 0).
Proof.
  exact (Update_after_Seek_sends_fresh_bytes false 5000000
           Audio.audio_in_progress
           (fst (Audio.Seek 5000000 Audio.audio_in_progress)) eq_refl).
Defined.

Lemma Decode_assertion_holds_witness :
  aborted (snd (Audio.DecodeIfFrameEmpty false Audio.audio_in_progress))
  = false.
Proof.
  apply (Decode_assertion_holds false Audio.audio_in_progress).
  apply Audio.Reachable_call; [apply Audio.Reachable_new | reflexivity].
Defined.

Lemma Update_aborts_exactly_witness :
  snd (Audio.Update false AudioCalls.backward_audio)
  = Aborted Audio.Transfer_iterator_in_frame.
Proof.
  apply (Update_aborts_exactly false AudioCalls.backward_audio
           Audio.Transfer_iterator_in_frame).
  - apply Audio.Reachable_new.
  - split; [reflexivity |]. split; [reflexivity |].
    eexists. split; [reflexivity |]. cbn. lia.
Defined.

Lemma bytes_are_conserved_witness :
  AudioCalls.sent_during false
    [Audio.OpUpdate; Audio.OpSetPlaying true; Audio.OpUpdate; Audio.OpUpdate]
    Audio.fresh_audio
  ++ AudioCalls.pending
       (AudioCalls.after false
          [Audio.OpUpdate; Audio.OpSetPlaying true; Audio.OpUpdate;
           Audio.OpUpdate]
          Audio.fresh_audio)
  = [Byte.x01; Byte.x02; Byte.x03; Byte.x04].
Proof.
  rewrite <- (bytes_are_conserved false
                [Audio.OpUpdate; Audio.OpSetPlaying true; Audio.OpUpdate;
                 Audio.OpUpdate]
                Audio.fresh_audio).
  - reflexivity.
  - intros k f it H; cbn; lia.
  - apply Audio.Reachable_new.
  - reflexivity.
Defined.

(** ** The older responder *)

Section ResponderFacts.

Import Wire Wire.Responder ResponseLines.
Local Open Scope string_scope.

Lemma append_str_inj (a b : string) (c : ascii) :
  a ++ str c = b ++ str c -> a = b.
Proof.
  revert b. induction a as [| x a IH]; intros [| y b] Heq; cbn in Heq.
  - reflexivity.
  - injection Heq as _ Heq. destruct b; discriminate.
  - injection Heq as _ Heq. destruct a; discriminate.
  - injection Heq as Hx Heq. subst y. f_equal. apply IH. exact Heq.
Qed.

Lemma line_feeds_app (a b : string) :
  line_feeds (a ++ b) = (line_feeds a + line_feeds b)%nat.
Proof.
  induction a as [| c a IH]; [reflexivity |]. cbn.
  destruct (Ascii.eqb c LF); rewrite IH; reflexivity.
Qed.

(** X12.  The string [Respond] hands to [RespondRaw] determines the code
    and the message it was made from: no two different responses are
    written the same way. *)
Theorem Respond_injective (code code' : ResponseCode)
        (message message' : string) :
  Respond code message = Respond code' message' ->
  code = code' /\ message = message'.
Proof.
  unfold Respond. intros Heq.
  destruct code, code'; cbn in Heq; try discriminate;
    (split; [reflexivity |]);
    repeat (injection Heq as Heq); apply append_str_inj in Heq;
    exact Heq.
Qed.

(** X13.  The string [Respond] hands over ends with a line feed and holds
    one line feed more than the message: it is a single line exactly when
    the message holds no line feed, and a message with a line feed in it is
    written out as more than one line. *)
Theorem Respond_lines (code : ResponseCode) (message : string) :
  ends_with_newline (Respond code message) = true
  /\ line_feeds (Respond code message) = S (line_feeds message)
  /\ (line_feeds (Respond code message) = 1%nat
      <-> line_feeds message = 0%nat).
Proof.
  assert (Hn : line_feeds (Respond code message) = S (line_feeds message)).
  { unfold Respond. rewrite !line_feeds_app.
    replace (line_feeds (RESPONSES code)) with 0%nat
      by (destruct code; reflexivity).
    cbn. rewrite Nat.add_1_r. reflexivity. }
  split; [| split; [exact Hn |]].
  - unfold Respond. rewrite <- !append_assoc.
    rewrite ends_with_newline_app by discriminate. reflexivity.
  - rewrite Hn. split; intros H; [injection H as H; exact H | rewrite H].
    reflexivity.
Qed.

End ResponderFacts.

Lemma Respond_injective_witness :
  Wire.Responder.OKAY = Wire.Responder.OKAY /\ "pong"%string = "pong"%string.
Proof.
  apply (Respond_injective Wire.Responder.OKAY Wire.Responder.OKAY
                           "pong" "pong").
  reflexivity.
Defined.

(** ** The life of a ring buffer *)

Section RingLifeFacts.

Import Method RingBuffer RingLife.

Context {T RB : Type} {pa : PaUtil T RB}.
Variables (P sizeof_rb : Z) (junk : T).

(** The constructor's effect on the free store next to its outcome. *)
Lemma PaRingBuffer_new_heap (size : Z) (h : Heap) :
  let bytes := buffer_length P size in
  let rb_allocated := (0 <=? sizeof_rb) && (sizeof_rb <=? free_bytes h) in
  let buffer_allocated :=
    (0 <=? bytes) && (bytes <=? free_bytes h - sizeof_rb) in
  fst (PaRingBuffer_new P sizeof_rb junk size h) =
  if rb_allocated
  then if buffer_allocated
       then mkHeap (free_bytes h - sizeof_rb - bytes)
       else mkHeap (free_bytes h - sizeof_rb)
  else h.
Proof.
  cbv zeta. unfold PaRingBuffer_new, bind, operator_new, throw, ret.
  destruct ((0 <=? sizeof_rb) && (sizeof_rb <=? free_bytes h));
    [| reflexivity].
  cbn [free_bytes].
  destruct ((0 <=? buffer_length P size)
            && (buffer_length P size <=? free_bytes h - sizeof_rb));
    [| reflexivity].
  destruct (PaUtil_InitializeRingBuffer size (element_count P) _)
    as [status r].
  destruct (negb (status =? 0)); reflexivity.
Qed.

(** The operations leave the sizes of the two allocations as they were. *)
Lemma PaRingBuffer_run_sizes (cs : list (RingCall T)) (q : PaRingBuffer RB) :
  rb_bytes (PaRingBuffer_run cs q) = rb_bytes q
  /\ buffer_bytes (PaRingBuffer_run cs q) = buffer_bytes q.
Proof.
  revert q. induction cs as [| c cs IH]; intros q; [split; reflexivity |].
  unfold PaRingBuffer_run in *. cbn [fold_left].
  destruct (IH (PaRingBuffer_call c q)) as [H1 H2]. rewrite H1, H2.
  destruct c as [start count | count |]; cbn.
  - unfold Write. destruct (PaUtil_WriteRingBuffer _ _ _); split; reflexivity.
  - unfold Read. destruct (PaUtil_ReadRingBuffer _ _) as [[r out] n].
    split; reflexivity.
  - split; reflexivity.
Qed.


(** X15.  A constructor that throws gives nothing back: when the ring
    library's initialisation fails, both allocations stay taken from the
    free store (the array with the length the [int] product came to), and
    when the second allocation fails, the first one stays taken.  Only a
    failure of the first allocation leaves the free store as it was. *)
Theorem failed_construction_keeps_memory
        (size : Z) (h h' : Heap) (e : exn) :
  0 <= P <= 31 ->
  PaRingBuffer_new P sizeof_rb junk size h = (h', Throws e) ->
  (has_kind INTERNAL e = true ->
   0 <= buffer_length P size
   /\ free_bytes h' = free_bytes h - sizeof_rb - buffer_length P size)
  /\ (e = std_bad_alloc ->
      (sizeof_rb <= free_bytes h -> 0 <= sizeof_rb ->
       free_bytes h' = free_bytes h - sizeof_rb)
      /\ (free_bytes h < sizeof_rb \/ sizeof_rb < 0 -> h' = h)).
Proof.
  intros _ Hnew.
  pose proof (PaRingBuffer_new_heap size h) as Hheap.
  pose proof (PaRingBuffer_new_outcome P sizeof_rb junk size h) as Hout.
  cbv zeta in Hheap, Hout. rewrite Hnew in Hheap, Hout.
  cbn [fst snd] in Hheap, Hout.
  destruct ((0 <=? sizeof_rb) && (sizeof_rb <=? free_bytes h)) eqn:Hrb.
  - apply andb_true_iff in Hrb. destruct Hrb as [H0 H1].
    apply Z.leb_le in H0, H1.
    destruct ((0 <=? buffer_length P size)
              && (buffer_length P size <=? free_bytes h - sizeof_rb))
      eqn:Hbuf.
    + cbn [negb orb] in Hout.
      destruct (negb (_ =? 0)); [| discriminate].
      injection Hout as He. subst e h'.
      apply andb_true_iff in Hbuf. destruct Hbuf as [Hb0 _].
      apply Z.leb_le in Hb0.
      split; [intros _; split; [exact Hb0 | reflexivity] |].
      discriminate.
    + cbn [negb orb] in Hout. injection Hout as He. subst e h'.
      split; [discriminate |]. intros _. split; [reflexivity |].
      intros [Hlt | Hlt]; lia.
  - cbn [negb orb] in Hout. injection Hout as He. subst e h'.
    split; [discriminate |]. intros _. split; [| reflexivity].
    apply andb_false_iff in Hrb. intros H1 H0.
    destruct Hrb as [Hrb | Hrb]; apply Z.leb_gt in Hrb; lia.
Qed.

End RingLifeFacts.


(** The same where the [int] product wraps: the constructor returns with an
    array of no bytes, and the destructor gives back what was taken. *)
Example wrapped_construction_balances :
  let made := RingBuffer.PaRingBuffer_new (RB := RingBuffer.Ring Byte.byte)
                30 48 Byte.x00 4 (RingBuffer.mkHeap 100) in
  RingBuffer.PaRingBuffer_delete
    (RingBuffer.mkPaRingBuffer
       (RingBuffer.mkRing (T := Byte.byte) 1073741824 0 0 []) 48 0)
    (fst made)
  = (RingBuffer.mkHeap 100, Returns tt).
Proof. reflexivity. Qed.

Lemma failed_construction_keeps_memory_witness :
  RingBuffer.free_bytes
    (fst (RingBuffer.PaRingBuffer_new (RB := unit) 2 48 Byte.x00 1
            (RingBuffer.mkHeap 100)))
  = 100 - 48 - RingBuffer.buffer_length 2 1.
Proof.
  apply (failed_construction_keeps_memory 2 48 Byte.x00 1
           (RingBuffer.mkHeap 100) _
           (Error INTERNAL "ringbuf failed to init")).
  - lia.
  - reflexivity.
  - reflexivity.
Defined.

(** ** The command line *)

Section CliFacts.

Import Cli.
Local Open Scope string_scope.

Variable IsOutputDevice : Z -> bool.

Lemma digits_no_digit (rest : string) (acc : Z) (k : nat) :
  starts_with_digit rest = false -> digits rest acc k = (acc, k).
Proof.
  destruct rest as [| c rest]; [reflexivity |]. cbn. intros H. rewrite H.
  reflexivity.
Qed.

(** Reading back the digits of a numeral gives its value. *)
Lemma digits_string_of_uint (d : Decimal.uint) (rest : string)
      (acc : Z) (k : nat) :
  starts_with_digit rest = false ->
  digits (NilEmpty.string_of_uint d ++ rest) acc k
  = (acc * 10 ^ Z.of_N (DecimalPos.Unsigned.usize d)
     + Z.of_N (DecimalPos.Unsigned.of_lu (Decimal.rev d)),
     (k + Decimal.nb_digits d)%nat).
Proof.
  intros Hrest. revert acc k.
  induction d as [| d IH | d IH | d IH | d IH | d IH | d IH | d IH | d IH
                  | d IH | d IH]; intros acc k;
    [cbn; rewrite digits_no_digit by assumption; f_equal; [ring | lia] | ..];
    cbn [NilEmpty.string_of_uint append digits];
    change (is_digit _) with true; cbv iota;
    unfold Decimal.rev; cbn [Decimal.revapp];
    rewrite (DecimalPos.Unsigned.of_lu_revapp d);
    rewrite IH;
    cbn [DecimalPos.Unsigned.usize Decimal.nb_digits];
    match goal with
    | |- context [digit_value ?c] =>
        let v := eval vm_compute in (digit_value c) in
        change (digit_value c) with v
    end;
    match goal with
    | |- context [DecimalPos.Unsigned.of_lu (?D Decimal.Nil)] =>
        let v := eval vm_compute in
                 (DecimalPos.Unsigned.of_lu (D Decimal.Nil)) in
        change (DecimalPos.Unsigned.of_lu (D Decimal.Nil)) with v
    end;
    rewrite N2Z.inj_add, N2Z.inj_mul, N2Z.inj_pow, N2Z.inj_succ,
      Z.pow_succ_r by apply N2Z.is_nonneg;
    cbn [Z.of_N];
    (f_equal; [ring | lia]).
Qed.

Lemma digit_is_not_minus (c : ascii) :
  is_digit c = true -> Ascii.eqb c "-" = false.
Proof.
  intros Hc. destruct (Ascii.eqb_spec c "-") as [Heq |]; [| reflexivity].
  subst c. discriminate.
Qed.

(** The decimal numeral of [n] is a digit followed by more. *)
Lemma to_string_head (n : N) :
  Audio.to_string n = NilEmpty.string_of_uint (N.to_uint n)
  /\ exists c s, Audio.to_string n = String c s /\ is_digit c = true.
Proof.
  unfold Audio.to_string, NilZero.string_of_uint.
  assert (Hnn : N.to_uint n <> Decimal.Nil).
  { destruct n; [discriminate |].
    apply DecimalPos.Unsigned.to_uint_nonnil. }
  destruct (N.to_uint n); [contradiction | ..];
    (split; [reflexivity |]); cbn [NilEmpty.string_of_uint];
    eexists; eexists; (split; [reflexivity |]); reflexivity.
Qed.

(** [from_chars] on a decimal numeral followed by something that is not a
    digit. *)
Lemma from_chars_decimal (n : N) (rest : string) (value : Z) :
  starts_with_digit rest = false ->
  exists matched,
    from_chars (Audio.to_string n ++ rest) value
    = if (Z.of_N n <=? INT_MAX)%Z
      then (Z.of_N n, matched, errc_none)
      else (value, matched, result_out_of_range).
Proof.
  intros Hrest. destruct (to_string_head n) as [Hstr (c & s & Hcs & Hc)].
  unfold from_chars. rewrite Hcs. cbn [append].
  rewrite (digit_is_not_minus c Hc).
  change (String c (s ++ rest)) with (String c s ++ rest).
  rewrite <- Hcs, Hstr, digits_string_of_uint by assumption.
  rewrite <- DecimalPos.Unsigned.of_uint_alt.
  change (Pos.of_uint (N.to_uint n)) with (N.of_uint (N.to_uint n)).
  rewrite DecimalN.Unsigned.of_to. cbn [Z.mul Z.add Nat.add].
  assert (Hnz : Nat.eqb (Decimal.nb_digits (N.to_uint n)) 0 = false).
  { rewrite Hstr in Hcs. destruct (N.to_uint n); [discriminate | ..];
      reflexivity. }
  rewrite Hnz.
  assert (Hmin : (INT_MIN <=? Z.of_N n)%Z = true).
  { apply Z.leb_le. unfold INT_MIN. lia. }
  rewrite Hmin. cbn [andb]. eexists. reflexivity.
Qed.

(** X16.  An argument that is the decimal numeral of a number that fits in
    an [int], followed by anything that does not begin with a digit (or by
    nothing), is read as that number, and nothing is written to
    [std::cerr]: the bytes after the number are ignored, and the ID is the
    number unless [IsOutputDevice] rejects it, when it is -1. *)
Theorem GetDeviceIDFromArg_reads_decimal (n : Z) (rest : string) :
  0 <= n <= INT_MAX ->
  starts_with_digit rest = false ->
  GetDeviceIDFromArg IsOutputDevice (Audio.to_string (Z.to_N n) ++ rest)
  = ("", if IsOutputDevice n then n else -1).
Proof.
  intros Hn Hrest. unfold GetDeviceIDFromArg.
  destruct (from_chars_decimal (Z.to_N n) rest (-1) Hrest) as [m Hm].
  rewrite Hm. rewrite Z2N.id by lia.
  replace (n <=? INT_MAX)%Z with true by (symmetry; apply Z.leb_le; lia).
  destruct (IsOutputDevice n); reflexivity.
Qed.

(** X17.  An argument that is the decimal numeral of a number above
    [INT_MAX], whatever follows it, is rejected as too large: the ID is -1,
    the diagnostic names the whole argument, and [IsOutputDevice] has no
    say. *)
Theorem GetDeviceIDFromArg_too_large (n : Z) (rest : string) :
  INT_MAX < n ->
  starts_with_digit rest = false ->
  let arg := Audio.to_string (Z.to_N n) ++ rest in
  GetDeviceIDFromArg IsOutputDevice arg
  = ("device ID too large: " ++ arg ++ Wire.str Wire.LF, -1).
Proof.
  intros Hn Hrest. cbv zeta. unfold GetDeviceIDFromArg.
  destruct (from_chars_decimal (Z.to_N n) rest (-1) Hrest) as [m Hm].
  rewrite Hm. unfold INT_MAX in Hn. rewrite Z2N.id by lia.
  replace (n <=? INT_MAX)%Z with false
    by (symmetry; apply Z.leb_gt; unfold INT_MAX; lia).
  reflexivity.
Qed.

(** X18.  An argument whose first byte is not a digit, and which is not a
    minus sign followed by a digit, is rejected as not a valid device ID:
    leading white space and a plus sign are not accepted.  The ID is -1 and
    the diagnostic names the argument. *)
Theorem GetDeviceIDFromArg_not_a_number (c : ascii) (rest : string) :
  is_digit c = false ->
  (c = "-"%char -> starts_with_digit rest = false) ->
  GetDeviceIDFromArg IsOutputDevice (String c rest)
  = ("not a valid device ID: " ++ String c rest ++ Wire.str Wire.LF, -1).
Proof.
  intros Hc Hminus. unfold GetDeviceIDFromArg, from_chars.
  destruct (Ascii.eqb_spec c "-") as [Heq | Hne].
  - rewrite digits_no_digit by auto. reflexivity.
  - cbn [digits]. rewrite Hc. reflexivity.
Qed.

Lemma from_chars_in_range (s : string) (value id : Z) (p : nat) :
  from_chars s value = (id, p, errc_none) -> INT_MIN <= id <= INT_MAX.
Proof.
  unfold from_chars.
  destruct (match s with
            | String c rest =>
                if Ascii.eqb c "-" then (true, rest) else (false, s)
            | EmptyString => (false, s)
            end) as [negative body].
  destruct (digits body 0 0) as [magnitude count].
  destruct (Nat.eqb count 0); [discriminate |].
  destruct ((INT_MIN <=? _) && (_ <=? INT_MAX))%Z eqn:Hrange;
    [| discriminate].
  intros Heq. injection Heq as Hid _. subst id.
  apply andb_true_iff in Hrange. destruct Hrange as [H1 H2].
  apply Z.leb_le in H1, H2. split; assumption.
Qed.

(** X19.  [GetDeviceID] never throws: the [at(1)] is only reached with two
    arguments or more.  With fewer it answers -1 and writes nothing; with
    two or more its answer, and what it writes to [std::cerr], are those of
    [GetDeviceIDFromArg] on the second argument, whatever the other
    arguments are.  Its answer is therefore -1, or the number
    [std::from_chars] read from the second argument without an error, which
    fits in an [int] and which [IsOutputDevice] accepts, and then nothing
    has been written. *)
Theorem GetDeviceID_never_throws (args : list string) :
  GetDeviceID IsOutputDevice args
  = Some (match args with
          | _ :: arg :: _ => GetDeviceIDFromArg IsOutputDevice arg
          | _ => ("", -1)
          end)
  /\ (forall (err : string) (id : Z),
         GetDeviceID IsOutputDevice args = Some (err, id) ->
         id = -1
         \/ (exists (progname arg : string) (more : list string)
                    (matched : nat),
                args = progname :: arg :: more
                /\ from_chars arg (-1) = (id, matched, errc_none)
                /\ IsOutputDevice id = true
                /\ INT_MIN <= id <= INT_MAX
                /\ err = "")).
Proof.
  assert (Heq : GetDeviceID IsOutputDevice args
                = Some (match args with
                        | _ :: arg :: _ =>
                            GetDeviceIDFromArg IsOutputDevice arg
                        | _ => ("", -1)
                        end)).
  { unfold GetDeviceID, vector_at.
    destruct args as [| progname [| arg more]]; reflexivity. }
  split; [exact Heq |].
  intros err id Hrun. rewrite Heq in Hrun. injection Hrun as Hrun.
  destruct args as [| progname [| arg more]];
    try (injection Hrun as _ Hid; left; symmetry; exact Hid).
  unfold GetDeviceIDFromArg in Hrun.
  destruct (from_chars arg (-1)) as [[id' p] ec] eqn:Hparse.
  destruct ec;
    try (injection Hrun as _ Hid; left; symmetry; exact Hid).
  pose proof (from_chars_in_range arg (-1) id' p Hparse) as Hrange.
  destruct (IsOutputDevice id') eqn:Hdev; cbn [negb] in Hrun;
    injection Hrun as Herr Hid; [| left; symmetry; exact Hid].
  subst id err. right. exists progname, arg, more, p.
  repeat split; try assumption; apply Hrange.
Qed.

End CliFacts.

(** X20.  [GetHostAndPort] never throws: each [at] is only reached when the
    argument is there.  The host is the third argument and the port the
    fourth, each replaced by its default ("0.0.0.0", "1350") when the
    arguments stop short of it; arguments after the fourth are ignored. *)
Theorem GetHostAndPort_defaults (args : list string) :
  Cli.GetHostAndPort args
  = Some (nth 2 args Cli.DEFAULT_HOST, nth 3 args Cli.DEFAULT_PORT).
Proof.
  unfold Cli.GetHostAndPort, Cli.vector_at.
  destruct args as [| a0 [| a1 [| a2 [| a3 more]]]]; reflexivity.
Qed.

Lemma GetDeviceIDFromArg_reads_decimal_witness :
  Cli.GetDeviceIDFromArg Cli.four_devices "3abc" = (""%string, 3).
Proof.
  apply (GetDeviceIDFromArg_reads_decimal Cli.four_devices 3 "abc").
  - unfold Cli.INT_MAX; lia.
  - reflexivity.
Defined.

Lemma GetDeviceIDFromArg_too_large_witness :
  Cli.GetDeviceIDFromArg Cli.four_devices "2147483648"
  = (("device ID too large: 2147483648" ++ Wire.str Wire.LF)%string, -1).
Proof.
  apply (GetDeviceIDFromArg_too_large Cli.four_devices 2147483648 "").
  - unfold Cli.INT_MAX; lia.
  - reflexivity.
Defined.

Lemma GetDeviceIDFromArg_not_a_number_witness :
  Cli.GetDeviceIDFromArg Cli.four_devices " 3"
  = (("not a valid device ID:  3" ++ Wire.str Wire.LF)%string, -1).
Proof.
  apply (GetDeviceIDFromArg_not_a_number Cli.four_devices " " "3").
  - reflexivity.
  - discriminate.
Defined.
